(** * rlm-minimal: the event log, the agent loop and the streaming bridge

    A shallow embedding of [rlm/logger/web_logger.py], [rlm/rlm_web.py] and
    [app.py].  Python objects that are mutated in place ([WebLogger],
    [RLM_WEB], the event queue) become records threaded through the
    functions that mutate them; Python exceptions become the left summand
    of a result; the worker thread and the generator of [app.py] become a
    two-thread transition system over the shared queue.  What the code
    imports but does not define (the model client, the REPL, the helpers
    of [rlm.utils], the clock, [json.dumps]) is a record of collaborators
    that every definition and theorem is parametric in.  Every run leaves
    a trace of its observable actions, in order, and the statements about
    what a run does are statements about that trace.

    The definitions come first, then the theorems: the event log, the
    agent loop, the streaming bridge, the entry point, concrete runs, and
    further properties of a run, of the bridge and of the logger. *)

From Stdlib Require Import List String Ascii ZArith Bool Lia.
From Stdlib Require Import Floats.SpecFloat.
Import ListNotations.
Open Scope string_scope.
Open Scope Z_scope.

Set Warnings "-register-all".

(** ** Python values

    The values that travel through [Dict[str, Any]] fields and through the
    JSON body of a request.  A [dict] keeps insertion order, so it is an
    association list. *)

Inductive Value : Type :=
| VNone
| VBool (b : bool)
| VInt (n : Z)
| VFloat (f : spec_float)
| VStr (s : string)
| VList (l : list Value)
| VDict (d : list (string * Value)).

Section ValueInduction.
Variable P : Value -> Prop.
Hypothesis HNone : P VNone.
Hypothesis HBool : forall b, P (VBool b).
Hypothesis HInt : forall n, P (VInt n).
Hypothesis HFloat : forall f, P (VFloat f).
Hypothesis HStr : forall s, P (VStr s).
Hypothesis HList : forall l, Forall P l -> P (VList l).
Hypothesis HDict : forall d, Forall (fun kv => P (snd kv)) d -> P (VDict d).

Fixpoint Value_deep_ind (v : Value) : P v :=
  match v with
  | VNone => HNone
  | VBool b => HBool b
  | VInt n => HInt n
  | VFloat f => HFloat f
  | VStr s => HStr s
  | VList l =>
      HList l ((fix go (l : list Value) : Forall P l :=
                  match l with
                  | [] => Forall_nil P
                  | x :: r => Forall_cons x (Value_deep_ind x) (go r)
                  end) l)
  | VDict d =>
      HDict d ((fix go (d : list (string * Value))
                  : Forall (fun kv => P (snd kv)) d :=
                  match d with
                  | [] => Forall_nil _
                  | (k, x) :: r =>
                      Forall_cons (k, x) (Value_deep_ind x) (go r)
                  end) d)
  end.
End ValueInduction.

(** Python truthiness ([not v] is [negb (truthy v)]). *)
Definition truthy (v : Value) : bool :=
  match v with
  | VNone => false
  | VBool b => b
  | VInt n => negb (n =? 0)
  | VFloat f => match f with S754_zero _ => false | _ => true end
  | VStr s => negb (String.eqb s "")
  | VList l => match l with [] => false | _ => true end
  | VDict d => match d with [] => false | _ => true end
  end.

(** Truthiness of an [Optional[str]]: [None] and [""] are falsy. *)
Definition truthy_opt (o : option string) : bool :=
  match o with
  | None => false
  | Some s => negb (String.eqb s "")
  end.

(** [copy.deepcopy] on plain values, as [dataclasses.asdict] applies it to
    every field: lists and dicts are rebuilt element by element, atoms are
    returned as they are. *)
Fixpoint deepcopy (v : Value) : Value :=
  match v with
  | VList l => VList (map deepcopy l)
  | VDict d => VDict (map (fun kv => let '(k, x) := kv in (k, deepcopy x)) d)
  | _ => v
  end.

(** [d[key]] / [d.get(key)] on an insertion-ordered dict. *)
Fixpoint dict_lookup (key : string) (d : list (string * Value)) : option Value :=
  match d with
  | [] => None
  | (k, v) :: r => if String.eqb k key then Some v else dict_lookup key r
  end.

Definition opt_int (o : option Z) : Value :=
  match o with
  | None => VNone
  | Some n => VInt n
  end.

Definition opt_float (o : option spec_float) : Value :=
  match o with
  | None => VNone
  | Some f => VFloat f
  end.

Definition opt_str (o : option string) : Value :=
  match o with
  | None => VNone
  | Some s => VStr s
  end.

(** ** [web_logger.py]: [Event] *)

Record Event : Type := mkEvent {
  type : string;
  timestamp : string;
  data : list (string * Value);
  step : option Z
}.

(** [Event.to_dict]: [asdict(self)], one key per dataclass field, in the
    order the fields are declared. *)
Definition to_dict (e : Event) : Value :=
  VDict [ ("type", deepcopy (VStr (type e)));
          ("timestamp", deepcopy (VStr (timestamp e)));
          ("data", deepcopy (VDict (data e)));
          ("step", deepcopy (opt_int (step e))) ].

(** Modelled from the spec: the client-side reader of an Event frame (the
    page that parses the stream is not among the sources).  The wire
    record has the fields [type] (string), [timestamp] (string), [step]
    (integer or absent) and [data] (a field mapping); a [step] that is
    absent or null reads as no step. *)
Definition of_dict (v : Value) : option Event :=
  match v with
  | VDict d =>
      match dict_lookup "type" d, dict_lookup "timestamp" d,
            dict_lookup "data" d with
      | Some (VStr ty), Some (VStr ts), Some (VDict da) =>
          match dict_lookup "step" d with
          | None | Some VNone => Some (mkEvent ty ts da None)
          | Some (VInt n) => Some (mkEvent ty ts da (Some n))
          | Some _ => None
          end
      | _, _, _ => None
      end
  | _ => None
  end.

Definition dict_keys (v : Value) : list string :=
  match v with
  | VDict d => map fst d
  | _ => []
  end.

(** ** [web_logger.py]: [WebLogger] *)

Record WebLogger : Type := mkWebLogger {
  events : list Event;
  conversation_step : Z;
  current_query : Value
}.

(** [WebLogger.__init__] *)
Definition WebLogger_init : WebLogger := mkWebLogger [] 0 (VStr "").

(** Every logging method reads [datetime.now().isoformat()] once; the
    reading is the argument [now].  The query is whatever the caller
    passed on (the web application passes a JSON value). *)
Definition log_query_start (now : string) (query : Value) (lg : WebLogger)
    : WebLogger :=
  mkWebLogger
    ([] ++ [mkEvent "query_start" now [("query", query)] None])
    0
    query.

Definition log_model_response (now response : string) (has_tool_calls : bool)
    (lg : WebLogger) : WebLogger :=
  let conversation_step' := conversation_step lg + 1 in
  mkWebLogger
    (events lg ++
       [mkEvent "model_response" now
          [("response", VStr response); ("has_tool_calls", VBool has_tool_calls)]
          (Some conversation_step')])
    conversation_step'
    (current_query lg).

Definition log_code_execution (now code stdout stderr : string)
    (execution_time : option spec_float) (lg : WebLogger) : WebLogger :=
  mkWebLogger
    (events lg ++
       [mkEvent "code_execution" now
          [("code", VStr code); ("stdout", VStr stdout); ("stderr", VStr stderr);
           ("execution_time", opt_float execution_time)]
          (Some (conversation_step lg))])
    (conversation_step lg)
    (current_query lg).

Definition log_repl_output (now output : string) (lg : WebLogger) : WebLogger :=
  mkWebLogger
    (events lg ++
       [mkEvent "repl_output" now [("output", VStr output)]
          (Some (conversation_step lg))])
    (conversation_step lg)
    (current_query lg).

Definition log_final_response (now response : string) (lg : WebLogger) : WebLogger :=
  mkWebLogger
    (events lg ++ [mkEvent "final_answer" now [("answer", VStr response)] None])
    (conversation_step lg)
    (current_query lg).

Definition log_error (now error : string) (lg : WebLogger) : WebLogger :=
  mkWebLogger
    (events lg ++ [mkEvent "error" now [("error", VStr error)] None])
    (conversation_step lg)
    (current_query lg).

Definition log_tool_execution (now tool_name result : string) (lg : WebLogger)
    : WebLogger :=
  mkWebLogger
    (events lg ++
       [mkEvent "tool_execution" now
          [("tool", VStr tool_name); ("result", VStr result)]
          (Some (conversation_step lg))])
    (conversation_step lg)
    (current_query lg).

Definition get_events (lg : WebLogger) : list Value :=
  map to_dict (events lg).

Definition clear (lg : WebLogger) : WebLogger :=
  mkWebLogger [] 0 (current_query lg).

(** One call of a public method of [WebLogger], as a value: what a client
    of the logger can do to it. *)
Inductive LoggerCall : Type :=
| Call_log_query_start (query : Value)
| Call_log_model_response (response : string) (has_tool_calls : bool)
| Call_log_code_execution (code stdout stderr : string)
    (execution_time : option spec_float)
| Call_log_repl_output (output : string)
| Call_log_final_response (response : string)
| Call_log_error (error : string)
| Call_log_tool_execution (tool_name result : string)
| Call_clear.

Definition logger_call (now : string) (c : LoggerCall) (lg : WebLogger)
    : WebLogger :=
  match c with
  | Call_log_query_start q => log_query_start now q lg
  | Call_log_model_response r h => log_model_response now r h lg
  | Call_log_code_execution c o e t => log_code_execution now c o e t lg
  | Call_log_repl_output o => log_repl_output now o lg
  | Call_log_final_response r => log_final_response now r lg
  | Call_log_error e => log_error now e lg
  | Call_log_tool_execution t r => log_tool_execution now t r lg
  | Call_clear => clear lg
  end.

(** A sequence of calls, each paired with the clock reading it makes. *)
Fixpoint logger_calls (cs : list (string * LoggerCall)) (lg : WebLogger)
    : WebLogger :=
  match cs with
  | [] => lg
  | (now, c) :: r => logger_calls r (logger_call now c lg)
  end.

(** The two methods that run [self.events.clear()]. *)
Definition resets_log (c : LoggerCall) : bool :=
  match c with
  | Call_log_query_start _ | Call_clear => true
  | _ => false
  end.

(** ** Exceptions and collaborators *)

(** The exceptions a run can meet, all of them subclasses of [Exception]
    (what [except Exception] catches): those the embedded code raises
    itself, and [Fault] for whatever a collaborator raises. *)
Inductive Exn : Type :=
| UnboundLocalError (name : string)
| IndexError (description : string)
| AttributeError (description : string)
| TypeError (description : string)
| ValueError (description : string)
| OverflowError (description : string)
| Fault (description : string).
    (* any exception a collaborator raises, with its [str(e)] *)

(** [str(e)] *)
Definition str_exn (e : Exn) : string :=
  match e with
  | UnboundLocalError name =>
      "cannot access local variable '" ++ name ++
      "' where it is not associated with a value"
  | IndexError d | AttributeError d | TypeError d | ValueError d
  | OverflowError d | Fault d => d
  end.

Definition Result (A : Type) : Type := (Exn + A)%type.

(** A conversation turn, [{"role": ..., "content": ...}]. *)
Record Message : Type := mkMessage {
  role : string;
  content : string
}.

(** One record of [repl_env_logger.executions]. *)
Record Execution : Type := mkExecution {
  code : string;
  stdout : string;
  stderr : string;
  execution_time : option spec_float
}.

(** Everything [rlm_web.py] and [app.py] import and call but do not define:
    the clock, the model client, the REPL with its execution logger, the
    helpers of [rlm.utils] and [json.dumps].  [World] is the state these
    collaborators keep between calls; each call may change it and may
    raise.  [check_for_final_answer] is handed the logger: the calls it
    makes on it are part of its outcome. *)
Record Collaborators : Type := mkCollaborators {
  World : Type;
  now_isoformat : World -> string * World;
  OpenAIClient : string -> option string -> Value -> World -> Result unit * World;
  llm_completion : list Message -> World -> Result string * World;
  REPLEnv : string -> Value -> Value -> World -> Result unit * World;
  find_code_blocks : string -> option (list string);
  process_code_execution :
    string -> list Message -> list Execution -> World ->
    Result (list Message * list Execution) * World;
  check_for_final_answer :
    string -> World -> (list LoggerCall * Result (option string)) * World;
  next_action_prompt : Value -> Z -> bool -> Message;
  build_system_prompt : list Message;
  DEFAULT_QUERY : Value;
  json_dumps : Value -> string;
  getenv : string -> option string;
  int_of_str : string -> Result Z       (* the builtin [int] on a [str] *)
}.

(** ** [rlm_web.py]: [RLM_WEB] *)

Record RLM_WEB : Type := mkRLM_WEB {
  base_url : string;
  api_key : option string;
  model : Value;
  recursive_model : Value;
  depth : Z;
  max_iterations : Z;
  logger : WebLogger;
  executions : list Execution;      (* [self.repl_env_logger.executions] *)
  messages : list Message;
  query : Value;
  event_callback : bool             (* is a callback registered *)
}.

Definition set_logger (lg : WebLogger) (r : RLM_WEB) : RLM_WEB :=
  mkRLM_WEB (base_url r) (api_key r) (model r) (recursive_model r) (depth r)
    (max_iterations r) lg (executions r) (messages r) (query r)
    (event_callback r).

Definition set_executions (ex : list Execution) (r : RLM_WEB) : RLM_WEB :=
  mkRLM_WEB (base_url r) (api_key r) (model r) (recursive_model r) (depth r)
    (max_iterations r) (logger r) ex (messages r) (query r)
    (event_callback r).

Definition set_messages (ms : list Message) (r : RLM_WEB) : RLM_WEB :=
  mkRLM_WEB (base_url r) (api_key r) (model r) (recursive_model r) (depth r)
    (max_iterations r) (logger r) (executions r) ms (query r)
    (event_callback r).

Definition set_query (q : Value) (r : RLM_WEB) : RLM_WEB :=
  mkRLM_WEB (base_url r) (api_key r) (model r) (recursive_model r) (depth r)
    (max_iterations r) (logger r) (executions r) (messages r) q
    (event_callback r).

Definition set_event_callback (cb : bool) (r : RLM_WEB) : RLM_WEB :=
  mkRLM_WEB (base_url r) (api_key r) (model r) (recursive_model r) (depth r)
    (max_iterations r) (logger r) (executions r) (messages r) (query r) cb.

(** What a run does, in the order it does it: the observable actions of
    one thread of control. *)
Inductive Action : Type :=
| AModel (msgs : list Message)     (* [self.llm.completion(msgs)] is called *)
| ADispatch (response : string)    (* [utils.process_code_execution] is called *)
| ACheck (response : string)       (* [utils.check_for_final_answer] is called *)
| AClear                           (* [logger.events.clear()] *)
| AAppend (e : Event)              (* [logger.events.append(e)] *)
| ACallback (e : Event).           (* [self.event_callback(e)] *)

(** The value [completion] returns. *)
Record Completion : Type := mkCompletion {
  answer : string;
  result_events : list Value
}.

Inductive LoopExit : Type :=
| Returned (final_answer : string)
| Exhausted (iteration : option Z).
    (* the loop ran out; the loop variable is bound to [iteration], or
       unbound when the body never ran *)

Section Orchestrator.
Variable C : Collaborators.

Record Run : Type := mkRun {
  self : RLM_WEB;
  world : World C;
  trace : list Action
}.

(** State and exceptions: a raise keeps the state reached so far. *)
Definition M (A : Type) : Type := Run -> Result A * Run.

Definition ret {A} (a : A) : M A := fun st => (inr a, st).

Definition raise {A} (e : Exn) : M A := fun st => (inl e, st).

Definition bind {A B} (m : M A) (k : A -> M B) : M B :=
  fun st =>
    match m st with
    | (inl e, st') => (inl e, st')
    | (inr a, st') => k a st'
    end.

Definition emit (a : list Action) : M unit :=
  fun st => (inr tt, mkRun (self st) (world st) (trace st ++ a)).

Definition update_self (f : RLM_WEB -> RLM_WEB) : M unit :=
  fun st => (inr tt, mkRun (f (self st)) (world st) (trace st)).

Definition read {A} (f : RLM_WEB -> A) : M A :=
  fun st => (inr (f (self st)), st).

(** A call into the collaborators' world. *)
Definition external {A} (f : World C -> Result A * World C) : M A :=
  fun st =>
    let '(r, w) := f (world st) in
    (r, mkRun (self st) w (trace st)).
End Orchestrator.

Arguments mkRun {C} _ _ _.
Arguments self {C} _.
Arguments world {C} _.
Arguments trace {C} _.
Arguments ret {C A} _ _.
Arguments raise {C A} _ _.
Arguments bind {C A B} _ _ _.
Arguments emit {C} _ _.
Arguments update_self {C} _ _.
Arguments read {C A} _ _.
Arguments external {C A} _ _.

Declare Scope run_scope.
Delimit Scope run_scope with run.
Notation "x <- m ;; k" := (bind m (fun x => k))
  (at level 61, m at next level, right associativity) : run_scope.
Notation "m ;;; k" := (bind m (fun _ => k))
  (at level 61, right associativity) : run_scope.

(** What a logger call does to [logger.events], as actions. *)
Definition log_actions (c : LoggerCall) (after : WebLogger) : list Action :=
  (if resets_log c then [AClear] else []) ++
  match c with
  | Call_clear => []
  | _ => match last (map Some (events after)) None with
         | Some e => [AAppend e]
         | None => []
         end
  end.

Section Completion.
Variable C : Collaborators.
Open Scope run_scope.

(** A call [self.logger.<method>(...)], from the loop or from a
    collaborator that was handed the logger. *)
Definition log (c : LoggerCall) : M C unit :=
  now <- external (fun w => let '(t, w') := now_isoformat C w in (inr t, w')) ;;
  update_self (fun r => set_logger (logger_call now c (logger r)) r) ;;;
  lg <- read logger ;;
  emit (log_actions c lg).

Fixpoint logs (cs : list LoggerCall) : M C unit :=
  match cs with
  | [] => ret tt
  | c :: r => log c ;;; logs r
  end.

(** [event = self.logger.events[-1]; self.event_callback(event)] under
    [if self.event_callback:]. *)
Definition stream_last_event : M C unit :=
  cb <- read event_callback ;;
  if cb then
    evs <- read (fun r => events (logger r)) ;;
    match last (map Some evs) None with
    | Some event => emit [ACallback event]
    | None => raise (IndexError "list index out of range")
    end
  else ret tt.

Definition call_llm (msgs : list Message) : M C string :=
  emit [AModel msgs] ;;;
  external (llm_completion C msgs).

Definition setup_context (context q : Value) : M C (list Message) :=
  let q := match q with VNone => DEFAULT_QUERY C | _ => q end in
  update_self (set_query q) ;;;
  log (Call_log_query_start q) ;;;
  stream_last_event ;;;
  update_self (set_messages (build_system_prompt C)) ;;;
  url <- read base_url ;;
  rm <- read recursive_model ;;
  external (REPLEnv C url context rm) ;;;
  read messages.

(** [for execution in new_executions: ...] *)
Fixpoint log_new_executions (new_executions : list Execution) : M C unit :=
  match new_executions with
  | [] => ret tt
  | execution :: r =>
      log (Call_log_code_execution (code execution) (stdout execution)
             (stderr execution) (execution_time execution)) ;;;
      stream_last_event ;;;
      log_new_executions r
  end.

(** The newline of ["You responded with:\n"]. *)
Definition newline : string := String (ascii_of_nat 10) EmptyString.

(** The body of [for iteration in range(self._max_iterations)]:
    [Some final_answer] when the body returns from [completion], [None]
    when it falls through to the next iteration.  [q] is the [query]
    argument of [completion]. *)
Definition loop_body (q : Value) (iteration : Z) : M C (option string) :=
  msgs <- read messages ;;
  response <- call_llm (msgs ++ [next_action_prompt C q iteration false]) ;;
  let code_blocks := find_code_blocks C response in
  log (Call_log_model_response response
         (match code_blocks with Some _ => true | None => false end)) ;;;
  stream_last_event ;;;
  match code_blocks with
  | Some _ =>
      previous <- read executions ;;
      let previous_execution_count := List.length previous in
      msgs <- read messages ;;
      emit [ADispatch response] ;;;
      r <- external (process_code_execution C response msgs previous) ;;
      update_self (set_messages (fst r)) ;;;
      update_self (set_executions (snd r)) ;;;
      let new_executions := skipn previous_execution_count (snd r) in
      log_new_executions new_executions
  | None =>
      let assistant_message :=
        mkMessage "assistant" ("You responded with:" ++ newline ++ response) in
      msgs <- read messages ;;
      update_self (set_messages (msgs ++ [assistant_message]))
  end ;;;
  emit [ACheck response] ;;;
  chk <- external (fun w => let '(o, w') := check_for_final_answer C response w
                            in (inr o, w')) ;;
  logs (fst chk) ;;;
  final_answer <- match snd chk with
                  | inl e => raise e
                  | inr o => ret o
                  end ;;
  if truthy_opt final_answer then
    match final_answer with
    | Some a =>
        log (Call_log_final_response a) ;;;
        stream_last_event ;;;
        ret (Some a)
    | None => ret None
    end
  else ret None.

(** The [for] loop itself: [remaining] iterations are left, the next
    one has index [iteration], and [bound] is what the loop variable is
    bound to so far. *)
Fixpoint for_iteration (q : Value) (remaining : nat) (iteration : Z)
    (bound : option Z) : M C LoopExit :=
  match remaining with
  | O => ret (Exhausted bound)
  | S k =>
      r <- loop_body q iteration ;;
      match r with
      | Some final_answer => ret (Returned final_answer)
      | None => for_iteration q k (iteration + 1) (Some iteration)
      end
  end.

Definition return_completion (final_answer : string) : M C Completion :=
  lg <- read logger ;;
  ret (mkCompletion final_answer (get_events lg)).

(** [RLM_WEB.completion(context, query, event_callback)] *)
Definition completion (context q : Value) (callback : bool) : M C Completion :=
  update_self (set_event_callback callback) ;;;
  msgs <- setup_context context q ;;
  update_self (set_messages msgs) ;;;
  n <- read max_iterations ;;
  exit <- for_iteration q (Z.to_nat n) 0 None ;;
  match exit with
  | Returned final_answer => return_completion final_answer
  | Exhausted bound =>
      iteration <- match bound with
                   | Some i => ret i
                   | None => raise (UnboundLocalError "iteration")
                   end ;;
      msgs <- read messages ;;
      update_self (set_messages (msgs ++ [next_action_prompt C q iteration true])) ;;;
      msgs <- read messages ;;
      final_answer <- call_llm msgs ;;
      log (Call_log_final_response final_answer) ;;;
      stream_last_event ;;;
      return_completion final_answer
  end.

(** [RLM_WEB.__init__] on a fresh object, then the run state around it. *)
Definition RLM_WEB_init (url : string) (key : option string)
    (mdl rmdl : Value) (max_iter dpth : Z) (w : World C) : Result unit * Run C :=
  external (OpenAIClient C url key mdl)
    (mkRun (mkRLM_WEB url key mdl rmdl dpth max_iter WebLogger_init [] []
              VNone false) w []).

End Completion.

(** The events handed to the callback, and the Model calls made, in a
    trace. *)
Definition callbacks (tr : list Action) : list Event :=
  flat_map (fun a => match a with ACallback e => [e] | _ => [] end) tr.

Definition appended (tr : list Action) : list Event :=
  flat_map (fun a => match a with AAppend e => [e] | _ => [] end) tr.

Definition model_calls (tr : list Action) : nat :=
  List.length (filter (fun a => match a with AModel _ => true | _ => false end) tr).

Definition is_type (t : string) (e : Event) : bool := String.eqb (type e) t.

Definition count_type (t : string) (evs : list Event) : nat :=
  List.length (filter (is_type t) evs).

(** ** [app.py] *)

(** The builtin [int] on a float: truncation towards zero. *)
Definition int_of_float (f : spec_float) : Result Z :=
  match f with
  | S754_zero _ => inr 0
  | S754_infinity _ => inl (OverflowError "cannot convert float infinity to integer")
  | S754_nan => inl (ValueError "cannot convert float NaN to integer")
  | S754_finite sign m e =>
      let magnitude :=
        if 0 <=? e then Z.pos m * 2 ^ e else Z.pos m / 2 ^ (- e) in
      inr (if sign then - magnitude else magnitude)
  end.

Module app.
Section App.
Variable C : Collaborators.

Definition rbind {A B} (r : Result A) (k : A -> Result B) : Result B :=
match r with
| inl e => inl e
| inr a => k a
end.

(** [type(v).__name__] *)
Definition type_name (v : Value) : string :=
match v with
| VNone => "NoneType"
| VBool _ => "bool"
| VInt _ => "int"
| VFloat _ => "float"
| VStr _ => "str"
| VList _ => "list"
| VDict _ => "dict"
end.

(** [data.get(key, default)]: only a JSON object has the method. *)
Definition get (data : Value) (key : string) (default : Value) : Result Value :=
match data with
| VDict d =>
    inr (match dict_lookup key d with Some v => v | None => default end)
| _ =>
    inl (AttributeError
           ("'" ++ type_name data ++ "' object has no attribute 'get'"))
end.

(** The builtin [int] *)
Definition int (v : Value) : Result Z :=
match v with
| VInt n => inr n
| VBool b => inr (if b then 1 else 0)
| VFloat f => int_of_float f
| VStr s => int_of_str C s
| VNone | VList _ | VDict _ =>
    inl (TypeError
           ("int() argument must be a string, a bytes-like object or a real number, not '"
            ++ type_name v ++ "'"))
end.

(** The variables of [query] that [generate] closes over. *)
Record Closure : Type := mkClosure {
context : Value;
query_text : Value;
model : Value;
recursive_model : Value;
max_iterations : Z
}.

Inductive Response : Type :=
| jsonify (body : Value) (status : Z)
| event_stream (generate : Closure).
  (* [Response(stream_with_context(generate()), ...)]: the generator
     object only; its body runs when the server iterates it *)

(** The route [/api/query], on the parsed JSON body [request.json]. *)
Definition query (data : Value) : Response :=
let body :=
  rbind (get data "context" (VStr "")) (fun context =>
  rbind (get data "query" (VStr "")) (fun query_text =>
  rbind (get data "model" (VStr "gpt-4o-mini")) (fun model =>
  rbind (get data "recursive_model" (VStr "gpt-4o-mini")) (fun recursive_model =>
  rbind (get data "max_iterations" (VInt 10)) (fun raw =>
  rbind (int raw) (fun max_iterations =>
  if negb (truthy context) || negb (truthy query_text) then
    inr (jsonify (VDict [("error", VStr "Context and query are required")]) 400)
  else
    inr (event_stream
           (mkClosure context query_text model recursive_model
              max_iterations)))))))) in
match body with
| inr response => response
| inl e =>
    jsonify (VDict [("success", VBool false); ("error", VStr (str_exn e))]) 500
end.


(** What the worker thread does to the state it shares with the
  generator: the queue and the two [nonlocal] variables. *)
Inductive WorkerOp : Type :=
| Put (item : option Event)           (* [events_queue.put(item)] *)
| SetFinalAnswer (a : string)         (* [final_answer = result["answer"]] *)
| SetErrorOccurred (e : string).      (* [error_occurred = str(e)] *)

(** The body of the [try] in [run_rlm], started in world [w]: build the
    [RLM_WEB], run [completion] with the callback registered. *)
Definition run_rlm_try (env : Closure) (w : World C) : Result Completion * Run C :=
  match RLM_WEB_init C "https://api.pinference.ai/api/v1"
          (getenv C "OPENAI_API_KEY") (model env) (recursive_model env)
          (max_iterations env) 0 w with
  | (inl e, st) => (inl e, st)
  | (inr _, st) => completion C (context env) (query_text env) true st
  end.

(** [run_rlm]: the run happens on the worker's own thread, and all it
    shares is what [event_callback] puts on the queue while it runs, then
    one of the two assignments and the sentinel. *)
Definition run_rlm (env : Closure) (w : World C) : list WorkerOp :=
  let '(r, st) := run_rlm_try env w in
  map (fun e => Put (Some e)) (callbacks (trace st)) ++
  match r with
  | inr result => [SetFinalAnswer (answer result); Put None]
  | inl e => [SetErrorOccurred (str_exn e); Put None]
  end.

Inductive PC : Type :=
| NotStarted     (* the generator has not been iterated yet *)
| Polling        (* in [while True], at [events_queue.get(timeout=1)] *)
| Joining        (* at [rlm_thread.join()] *)
| Finished.      (* the generator is exhausted *)

Record Sys : Type := mkSys {
pc : PC;
events_queue : list (option Event);
final_answer : option string;
error_occurred : option string;
rlm_thread : list WorkerOp;      (* what the worker has still to do *)
yielded : list string
}.

Definition sse (payload : Value) : string :=
"data: " ++ json_dumps C payload ++ newline ++ newline.

Definition error_frame (e : string) : Value :=
VDict [("type", VStr "error"); ("error", VStr e)].

Definition complete_frame (a : option string) : Value :=
VDict [("type", VStr "complete"); ("answer", opt_str a)].

(** The frame after [rlm_thread.join()]. *)
Definition terminal_frame (error_occurred final_answer : option string) : Value :=
if truthy_opt error_occurred then
  match error_occurred with
  | Some e => error_frame e
  | None => complete_frame final_answer
  end
else complete_frame final_answer.

Definition worker_step (s : Sys) : Sys :=
match rlm_thread s with
| [] => s
| Put item :: rest =>
    mkSys (pc s) (events_queue s ++ [item]) (final_answer s)
      (error_occurred s) rest (yielded s)
| SetFinalAnswer a :: rest =>
    mkSys (pc s) (events_queue s) (Some a) (error_occurred s) rest (yielded s)
| SetErrorOccurred e :: rest =>
    mkSys (pc s) (events_queue s) (final_answer s) (Some e) rest (yielded s)
end.

(** One step of [generate]: up to the next [yield], blocking call or
  poll. *)
Definition generate_step (env : Closure) (w : World C) (s : Sys) : Sys :=
match pc s with
| NotStarted =>
    mkSys Polling [] None None (run_rlm env w) (yielded s)
| Polling =>
    match events_queue s with
    | [] => s                             (* [queue.Empty]: [continue] *)
    | None :: q =>                        (* completion signal: [break] *)
        mkSys Joining q (final_answer s) (error_occurred s)
          (rlm_thread s) (yielded s)
    | Some event :: q =>
        mkSys Polling q (final_answer s) (error_occurred s)
          (rlm_thread s) (yielded s ++ [sse (to_dict event)])
    end
| Joining =>
    match rlm_thread s with
    | [] =>
        mkSys Finished (events_queue s) (final_answer s) (error_occurred s)
          [] (yielded s ++
                [sse (terminal_frame (error_occurred s) (final_answer s))])
    | _ :: _ => s                         (* [join] blocks *)
    end
| Finished => s
end.

Inductive Thread : Type := Worker | Consumer.

Definition step (env : Closure) (w : World C) (t : Thread) (s : Sys) : Sys :=
match t with
| Worker => worker_step s
| Consumer => generate_step env w s
end.

(** The two threads interleaved by a schedule. *)
Definition exec (env : Closure) (w : World C) (schedule : list Thread)
  (s : Sys) : Sys :=
fold_left (fun s t => step env w t s) schedule s.

Definition generate (env : Closure) : Sys :=
mkSys NotStarted [] None None [] [].

(** The events the worker puts on the queue, and the frame that ends the
  stream of a run. *)
Definition pushed (prog : list WorkerOp) : list Event :=
flat_map (fun op => match op with Put (Some e) => [e] | _ => [] end) prog.

Definition final_flags (prog : list WorkerOp) : option string * option string :=
fold_left (fun fl op =>
             match op with
             | SetFinalAnswer a => (fst fl, Some a)
             | SetErrorOccurred e => (Some e, snd fl)
             | Put _ => fl
             end) prog (None, None).

Definition expected_stream (prog : list WorkerOp) : list string :=
map (fun e => sse (to_dict e)) (pushed prog) ++
[sse (terminal_frame (fst (final_flags prog)) (snd (final_flags prog)))].

(** *** The bridge's invariant

  [run_rlm] is always a run of puts of Events, one assignment and the
  sentinel.  While the generator polls, the Events of the run split
  into those already yielded, those waiting in the queue and those the
  worker has still to put. *)
Definition put_event (e : Event) : WorkerOp := Put (Some e).

Definition frame_of (e : Event) : string := sse (to_dict e).

Definition is_assignment (op : WorkerOp) : bool :=
match op with
| Put _ => false
| _ => true
end.

Definition flags_after (fin : WorkerOp) : option string * option string :=
match fin with
| SetFinalAnswer a => (None, Some a)
| SetErrorOccurred e => (Some e, None)
| Put _ => (None, None)
end.

Definition flags (s : Sys) : option string * option string :=
(error_occurred s, final_answer s).

Inductive bridge_inv (evs : list Event) (fin : WorkerOp) : Sys -> Prop :=
| inv_not_started :
  bridge_inv evs fin (mkSys NotStarted [] None None [] [])
| inv_running (ys qs rest : list Event) (s : Sys) :
  evs = (ys ++ qs ++ rest)%list ->
  pc s = Polling ->
  rlm_thread s = (map put_event rest ++ [fin; Put None])%list ->
  events_queue s = map Some qs ->
  yielded s = map frame_of ys ->
  flags s = (None, None) ->
  bridge_inv evs fin s
| inv_assigned (ys qs : list Event) (s : Sys) :
  evs = (ys ++ qs)%list ->
  pc s = Polling ->
  rlm_thread s = [Put None] ->
  events_queue s = map Some qs ->
  yielded s = map frame_of ys ->
  flags s = flags_after fin ->
  bridge_inv evs fin s
| inv_signalled (ys qs : list Event) (s : Sys) :
  evs = (ys ++ qs)%list ->
  pc s = Polling ->
  rlm_thread s = [] ->
  events_queue s = (map Some qs ++ [None])%list ->
  yielded s = map frame_of ys ->
  flags s = flags_after fin ->
  bridge_inv evs fin s
| inv_joining (s : Sys) :
  pc s = Joining ->
  rlm_thread s = [] ->
  events_queue s = [] ->
  yielded s = map frame_of evs ->
  flags s = flags_after fin ->
  bridge_inv evs fin s
| inv_finished (s : Sys) :
  pc s = Finished ->
  rlm_thread s = [] ->
  yielded s =
    (map frame_of evs ++
     [sse (terminal_frame (fst (flags_after fin)) (snd (flags_after fin)))])%list ->
  bridge_inv evs fin s.

(** How far a state is from the end of the stream. *)
Definition distance (prog : list WorkerOp) (s : Sys) : nat :=
match pc s with
| NotStarted => 2 * List.length prog + 3
| Polling => 2 * List.length (rlm_thread s) + List.length (events_queue s) + 2
| Joining => 2 * List.length (rlm_thread s) + List.length (events_queue s) + 1
| Finished => 0
end%nat.
End App.
End app.

(** ** Scripted collaborators

    Test doubles to run the code on concrete inputs: the model answers
    from a script (the world counts the calls made so far), a reply that
    starts with a code fence is one code block whose execution adds one
    record, and the final-answer check is given as a function. *)
Module scripted.
Definition fence : string := "```".

Definition collaborators
    (replies : list (Result string))
    (check : string -> list LoggerCall * Result (option string))
    (dumps : Value -> string) : Collaborators :=
  {| World := nat;
     now_isoformat := fun w => ("2026-01-01T00:00:00", w);
     OpenAIClient := fun _ _ _ w => (inr tt, w);
     llm_completion := fun _ w => (nth w replies (inr ""), S w);
     REPLEnv := fun _ _ _ w => (inr tt, w);
     find_code_blocks := fun r => if String.prefix fence r then Some [r] else None;
     process_code_execution := fun r msgs ex w =>
       (inr ((msgs ++ [mkMessage "user" "REPL output"])%list,
             (ex ++ [mkExecution r "out" "" None])%list), w);
     check_for_final_answer := fun r w => (check r, w);
     next_action_prompt := fun _ _ final =>
       mkMessage "user" (if final then "answer now" else "next action");
     build_system_prompt := [mkMessage "system" "You have a REPL."];
     DEFAULT_QUERY := VStr "default query";
     json_dumps := dumps;
     getenv := fun _ => None;
     int_of_str := fun _ => inl (ValueError "invalid literal for int()") |}.

(** A final-answer check in the manner of [FINAL(...)] and
    [FINAL_VAR(...)]: a direct answer matches; a variable that the REPL
    does not hold is reported through [logger.log_tool_execution] and
    does not match. *)
Definition check (response : string) : list LoggerCall * Result (option string) :=
  if String.eqb response "FINAL(Paris)" then ([], inr (Some "Paris"))
  else if String.eqb response "FINAL_VAR(missing)" then
    ([Call_log_tool_execution "FINAL_VAR"
        "Variable 'missing' not found in REPL environment"], inr None)
  else ([], inr None).

Definition never (response : string) : list LoggerCall * Result (option string) :=
  ([], inr None).

Definition plain : Collaborators :=
  collaborators [] never (fun _ => "{}").



(** The check of a reply that always carries the marker. *)
Definition always_paris (response : string)
    : list LoggerCall * Result (option string) :=
  ([], inr (Some "Paris")).

(** A model that answers with code and, in the same reply, the marker. *)
Definition coder : Collaborators :=
  collaborators [inr "```print(1)"] always_paris (fun _ => "{}").

(** A model whose first reply names a variable the REPL does not hold
    and whose second reply answers directly. *)
Definition unresolved_variable : Collaborators :=
  collaborators [inr "FINAL_VAR(missing)"; inr "FINAL(Paris)"] check
    (fun _ => "{}").

(** A model that replies twice and then fails with an exception whose
    [str] is empty (a bare [assert], a [TimeoutError()]). *)
Definition failing_model (dumps : Value -> string) : Collaborators :=
  collaborators [inr "thinking"; inr "still thinking"; inl (Fault "")] never
    dumps.

(** A model that replies twice and then fails with a described fault. *)
Definition rate_limited : Collaborators :=
  collaborators
    [inr "thinking"; inr "still thinking"; inl (Fault "rate limit exceeded")]
    never (fun _ => "{}").

Definition ten_iterations : app.Closure :=
  app.mkClosure (VStr "Paris is the capital of France.")
    (VStr "What is the capital of France?") (VStr "gpt-4o-mini")
    (VStr "gpt-4o-mini") 10.

(** The worker runs to its end first, then the generator drains. *)
Definition worker_first : list app.Thread :=
  (app.Consumer :: repeat app.Worker 5 ++ repeat app.Consumer 5)%list.

(** A run of [completion] on a fresh [RLM_WEB]. *)
Definition run (C : Collaborators) (w : World C) (max_iter : Z)
    (context q : Value) (callback : bool) : Result Completion * Run C :=
  match RLM_WEB_init C "https://api.openai.com/v1" None (VStr "gpt-4o-mini")
          (VStr "gpt-4o-mini") max_iter 0 w with
  | (inl e, st) => (inl e, st)
  | (inr _, st) => completion C context q callback st
  end.

(** The state of a fresh [RLM_WEB] before [completion] is called. *)
Definition fresh (C : Collaborators) (w : World C) (max_iter : Z) : Run C :=
  snd (RLM_WEB_init C "https://api.openai.com/v1" None (VStr "gpt-4o-mini")
         (VStr "gpt-4o-mini") max_iter 0 w).
End scripted.


(** An append by the loop, followed at once by the callback when one is
    registered. *)
Definition observe (cb : bool) (e : Event) : list Action :=
  AAppend e :: (if cb then [ACallback e] else []).

(** The clock reading and the world after it. *)
Definition clock (C : Collaborators) (w : World C) : string :=
  fst (now_isoformat C w).

Definition tick (C : Collaborators) (w : World C) : World C :=
  snd (now_isoformat C w).

(** The calls [check_for_final_answer] makes on the logger to report a
    marker it could not resolve. *)
Definition quiet_call (c : LoggerCall) : bool :=
  match c with
  | Call_log_tool_execution _ _ | Call_log_repl_output _ => true
  | _ => false
  end.

(** Actions on the log alone. *)
Definition log_action (a : Action) : bool :=
  match a with
  | AClear | AAppend _ => true
  | _ => false
  end.

(** The data of the [code_execution] Event logged for an execution. *)
Definition execution_data (x : Execution) : list (string * Value) :=
  [("code", VStr (code x)); ("stdout", VStr (stdout x));
   ("stderr", VStr (stderr x)); ("execution_time", opt_float (execution_time x))].

(** *** The shape of a run

    What one iteration of the loop adds to the trace, by outcome: the
    Model call; the [model_response] Event; for a response with code, the
    dispatch and one [code_execution] Event per new record; the
    final-answer check with what it logs; and, when it matches, the
    [final_answer] Event.  A fault cuts the iteration short. *)
Definition dispatched (cb : bool) (response : string) (mid : list Action) : Prop :=
  mid = [] \/
  exists ces,
    mid = ADispatch response :: flat_map (observe cb) ces /\
    Forall (fun e => type e = "code_execution") ces.

(** [chk] is what the check's calls [cs] on the logger add to the trace. *)
Definition check_logged (cs : list LoggerCall) (chk : list Action) : Prop :=
  forallb log_action chk = true /\
  (cs = [] -> chk = []) /\
  (Forall (fun c => quiet_call c = true) cs ->
   List.length (appended chk) = List.length cs /\
   Forall (fun e => type e = "tool_execution" \/ type e = "repl_output")
     (appended chk)).

Inductive iteration_trace (C : Collaborators) (cb : bool)
    : Result (option string) -> list Action -> Prop :=
| it_model_raises (msgs : list Message) (w : World C) (e : Exn) :
    fst (llm_completion C msgs w) = inl e ->
    iteration_trace C cb (inl e) [AModel msgs]
| it_dispatch_raises (msgs ms : list Message) (ex : list Execution)
    (w : World C) (mr : Event) (response : string) (e : Exn) :
    type mr = "model_response" ->
    fst (process_code_execution C response ms ex w) = inl e ->
    iteration_trace C cb (inl e)
      ([AModel msgs] ++ observe cb mr ++ [ADispatch response])
| it_check_raises (msgs : list Message) (w : World C) (mr : Event)
    (response : string) (mid chk : list Action) (e : Exn) :
    type mr = "model_response" ->
    dispatched cb response mid ->
    check_logged (fst (fst (check_for_final_answer C response w))) chk ->
    snd (fst (check_for_final_answer C response w)) = inl e ->
    iteration_trace C cb (inl e)
      ([AModel msgs] ++ observe cb mr ++ mid ++ [ACheck response] ++ chk)
| it_continues (msgs : list Message) (w : World C) (mr : Event)
    (response : string) (mid chk : list Action) (o : option string) :
    type mr = "model_response" ->
    dispatched cb response mid ->
    check_logged (fst (fst (check_for_final_answer C response w))) chk ->
    snd (fst (check_for_final_answer C response w)) = inr o ->
    truthy_opt o = false ->
    iteration_trace C cb (inr None)
      ([AModel msgs] ++ observe cb mr ++ mid ++ [ACheck response] ++ chk)
| it_returns (msgs : list Message) (w : World C) (mr fa : Event)
    (response : string) (mid chk : list Action) (a : string) :
    type mr = "model_response" ->
    dispatched cb response mid ->
    check_logged (fst (fst (check_for_final_answer C response w))) chk ->
    snd (fst (check_for_final_answer C response w)) = inr (Some a) ->
    truthy_opt (Some a) = true ->
    type fa = "final_answer" ->
    data fa = [("answer", VStr a)] ->
    iteration_trace C cb (inr (Some a))
      ([AModel msgs] ++ observe cb mr ++ mid ++ [ACheck response] ++ chk ++
       observe cb fa).

(** The iterations of a run of the loop, by the way it ends. *)
Definition loop_trace (C : Collaborators) (cb : bool) (n : nat)
    (r : Result LoopExit) (trs : list (list Action)) : Prop :=
  match r with
  | inr (Exhausted _) =>
      List.length trs = n /\ Forall (iteration_trace C cb (inr None)) trs
  | inr (Returned a) =>
      exists init final,
        trs = (init ++ [final])%list /\ (List.length trs <= n)%nat /\
        Forall (iteration_trace C cb (inr None)) init /\
        iteration_trace C cb (inr (Some a)) final
  | inl e =>
      exists init final,
        trs = (init ++ [final])%list /\ (List.length trs <= n)%nat /\
        Forall (iteration_trace C cb (inr None)) init /\
        iteration_trace C cb (inl e) final
  end.

(** How [completion] ends after [setup_context], over the [n] iterations
    it was given: with the loop's fault or early return, on the unbound
    loop variable, or with the forced final call. *)
Inductive run_end (C : Collaborators) (cb : bool) (n : nat)
    : Result Completion -> list (list Action) -> list Action -> Prop :=
| end_loop_fault (e : Exn) (trs : list (list Action)) :
    loop_trace C cb n (inl e) trs ->
    run_end C cb n (inl e) trs []
| end_returned (a : string) (evs : list Value) (trs : list (list Action)) :
    loop_trace C cb n (inr (Returned a)) trs ->
    run_end C cb n (inr (mkCompletion a evs)) trs []
| end_unbound :
    n = 0%nat ->
    run_end C cb n (inl (UnboundLocalError "iteration")) [] []
| end_forced_fault (b : option Z) (trs : list (list Action))
    (msgs : list Message) (w : World C) (e : Exn) :
    (0 < n)%nat ->
    loop_trace C cb n (inr (Exhausted b)) trs ->
    fst (llm_completion C msgs w) = inl e ->
    run_end C cb n (inl e) trs [AModel msgs]
| end_forced (b : option Z) (trs : list (list Action))
    (msgs : list Message) (w : World C) (s : string) (fa : Event)
    (evs : list Value) :
    (0 < n)%nat ->
    loop_trace C cb n (inr (Exhausted b)) trs ->
    fst (llm_completion C msgs w) = inr s ->
    type fa = "final_answer" ->
    data fa = [("answer", VStr s)] ->
    run_end C cb n (inr (mkCompletion s evs)) trs
      ([AModel msgs] ++ observe cb fa).

(** Every append is followed at once by the callback with the Event just
    appended, and the callback is invoked at no other moment. *)
Inductive synchronous : list Action -> Prop :=
| sync_nil : synchronous []
| sync_event (e : Event) (r : list Action) :
    synchronous r -> synchronous (AAppend e :: ACallback e :: r)
| sync_other (a : Action) (r : list Action) :
    match a with AAppend _ | ACallback _ => False | _ => True end ->
    synchronous r -> synchronous (a :: r).

(** The final-answer check makes no call on the logger. *)
Definition silent_check (C : Collaborators) : Prop :=
  forall r w, fst (fst (check_for_final_answer C r w)) = [].

(** No collaborator ever raises. *)
Definition no_faults (C : Collaborators) : Prop :=
  (forall u k m w, fst (OpenAIClient C u k m w) = inr tt) /\
  (forall u c r w, fst (REPLEnv C u c r w) = inr tt) /\
  (forall msgs w, exists s, fst (llm_completion C msgs w) = inr s) /\
  (forall r ms ex w, exists out, fst (process_code_execution C r ms ex w) = inr out) /\
  (forall r w, exists o, snd (fst (check_for_final_answer C r w)) = inr o).

(** The final-answer check never matches, and logs only what it could not
    resolve. *)
Definition never_matches (C : Collaborators) : Prop :=
  forall r w,
    (forall o, snd (fst (check_for_final_answer C r w)) = inr o ->
               truthy_opt o = false) /\
    Forall (fun c => quiet_call c = true) (fst (fst (check_for_final_answer C r w))).

(** The step discipline of the log: what [step] an Event of each type
    carries when [seen] model responses were appended before it. *)
Definition step_ok (seen : Z) (e : Event) : Prop :=
  (type e = "model_response" -> step e = Some (seen + 1)) /\
  (type e = "code_execution" \/ type e = "repl_output" \/
   type e = "tool_execution" -> step e = Some seen) /\
  (type e = "query_start" \/ type e = "final_answer" \/ type e = "error" ->
   step e = None).

Definition bump (seen : Z) (e : Event) : Z :=
  if is_type "model_response" e then seen + 1 else seen.

Fixpoint stepped (seen : Z) (evs : list Event) : Prop :=
  match evs with
  | [] => True
  | e :: r => step_ok seen e /\ stepped (bump seen e) r
  end.



(** A property of the run state that a computation keeps. *)
Definition keeps {C : Collaborators} {A : Type} (I : Run C -> Prop) (m : M C A)
    : Prop :=
  forall st, I st -> I (snd (m st)).

(** The log that the actions of a trace leave behind. *)
Fixpoint replay_from (acc : list Event) (tr : list Action) : list Event :=
  match tr with
  | [] => acc
  | AClear :: r => replay_from [] r
  | AAppend e :: r => replay_from (acc ++ [e]) r
  | _ :: r => replay_from acc r
  end.

Definition replay (tr : list Action) : list Event := replay_from [] tr.

(** The log of the state is the one its trace accounts for. *)
Definition coherent {C : Collaborators} (st : Run C) : Prop :=
  events (logger (self st)) = replay (trace st).

Definition clear_free (tr : list Action) : bool :=
  forallb (fun a => match a with AClear => false | _ => true end) tr.

(** The Events waiting in the queue of the bridge. *)
Definition queued_events (q : list (option Event)) : list Event :=
  flat_map (fun item => match item with Some e => [e] | None => [] end) q.

(** The names of the data fields the logger gives an Event of each of its
    seven types. *)
Definition event_fields (t : string) : option (list string) :=
  if String.eqb t "query_start" then Some ["query"]
  else if String.eqb t "model_response" then Some ["response"; "has_tool_calls"]
  else if String.eqb t "code_execution" then
    Some ["code"; "stdout"; "stderr"; "execution_time"]
  else if String.eqb t "repl_output" then Some ["output"]
  else if String.eqb t "final_answer" then Some ["answer"]
  else if String.eqb t "error" then Some ["error"]
  else if String.eqb t "tool_execution" then Some ["tool"; "result"]
  else None.

Definition recognised (e : Event) : Prop :=
  event_fields (type e) = Some (map fst (data e)).

(** The logger's invariant: the log is well stepped and the counter is the
    number of model responses in it. *)
Definition logger_inv (lg : WebLogger) : Prop :=
  stepped 0 (events lg) /\
  conversation_step lg = Z.of_nat (count_type "model_response" (events lg)).

(** Two appending calls, each with its clock reading. *)
Definition two_appends : list (string * LoggerCall) :=
  [("t1", Call_log_error "boom"); ("t2", Call_log_repl_output "42")].

(** *** The two halves of an iteration

    The body of the loop up to the final-answer check: the Model call,
    the [model_response] Event, and the dispatch of the code with its
    [code_execution] Events or the assistant turn.  It gives the reply. *)
Definition reply_and_execute (C : Collaborators) (q : Value) (iteration : Z)
    : M C string :=
  (msgs <- read messages ;;
   response <- call_llm C (msgs ++ [next_action_prompt C q iteration false]) ;;
   let code_blocks := find_code_blocks C response in
   log C (Call_log_model_response response
            (match code_blocks with Some _ => true | None => false end)) ;;;
   stream_last_event C ;;;
   match code_blocks with
   | Some _ =>
       previous <- read executions ;;
       let previous_execution_count := List.length previous in
       msgs <- read messages ;;
       emit [ADispatch response] ;;;
       r <- external (process_code_execution C response msgs previous) ;;
       update_self (set_messages (fst r)) ;;;
       update_self (set_executions (snd r)) ;;;
       let new_executions := skipn previous_execution_count (snd r) in
       log_new_executions C new_executions
   | None =>
       let assistant_message :=
         mkMessage "assistant" ("You responded with:" ++ newline ++ response) in
       msgs <- read messages ;;
       update_self (set_messages (msgs ++ [assistant_message]))
   end ;;;
   ret response)%run.

(** The rest of the body: [utils.check_for_final_answer] on the reply
    and, under [if final_answer:], the [final_answer] Event and the
    return from [completion]. *)
Definition check_and_answer (C : Collaborators) (response : string)
    : M C (option string) :=
  (emit [ACheck response] ;;;
   chk <- external (fun w => let '(o, w') := check_for_final_answer C response w
                             in (inr o, w')) ;;
   logs C (fst chk) ;;;
   final_answer <- match snd chk with
                   | inl e => raise e
                   | inr o => ret o
                   end ;;
   if truthy_opt final_answer then
     match final_answer with
     | Some a =>
         log C (Call_log_final_response a) ;;;
         stream_last_event C ;;;
         ret (Some a)
     | None => ret None
     end
   else ret None)%run.

(** The state in which the loop starts: after the callback is stored and
    [setup_context] has run. *)
Definition loop_start (C : Collaborators) (context q : Value) (cb : bool)
    (st : Run C) : Run C :=
  snd (setup_context C context q
         (mkRun (set_event_callback cb (self st)) (world st) (trace st))).

(** * Theorems *)

Open Scope list_scope.

(** ** The event log *)

Lemma deepcopy_id (v : Value) : deepcopy v = v.
Proof.
  induction v using Value_deep_ind; simpl; try reflexivity.
  - f_equal. induction H as [|x l Hx _ IH]; simpl; [reflexivity|].
    now rewrite Hx, IH.
  - f_equal. induction H as [|[k x] d Hx _ IH]; simpl in *; [reflexivity|].
    now rewrite Hx, IH.
Qed.

Lemma to_dict_fields (e : Event) :
  to_dict e = VDict [("type", VStr (type e)); ("timestamp", VStr (timestamp e));
                     ("data", VDict (data e)); ("step", opt_int (step e))].
Proof.
  unfold to_dict. now rewrite !deepcopy_id.
Qed.

(** C9. Serialising an Event to its wire record with [to_dict] and reading
    the record back gives the same Event, so serialising again gives the
    identical record; the record has exactly the four keys [type],
    [timestamp], [data], [step], and two Events with the same record are
    the same Event: no field is lost. *)
Theorem event_wire_round_trip (e : Event) :
  of_dict (to_dict e) = Some e /\
  option_map to_dict (of_dict (to_dict e)) = Some (to_dict e) /\
  dict_keys (to_dict e) = ["type"; "timestamp"; "data"; "step"] /\
  (forall e', to_dict e' = to_dict e -> e' = e).
Proof.
  assert (H : of_dict (to_dict e) = Some e).
  { rewrite to_dict_fields. destruct e as [ty ts da [n|]]; reflexivity. }
  split; [exact H | split; [| split]].
  - rewrite H. reflexivity.
  - rewrite to_dict_fields. reflexivity.
  - intros e' He'.
    assert (H' : of_dict (to_dict e') = Some e').
    { rewrite to_dict_fields. destruct e' as [ty ts da [n|]]; reflexivity. }
    rewrite He', H in H'. now injection H'.
Qed.

Lemma logger_call_appends (now : string) (c : LoggerCall) (lg : WebLogger) :
  resets_log c = false ->
  exists e, events (logger_call now c lg) = events lg ++ [e].
Proof.
  destruct c; simpl; intros H; try discriminate; eexists; reflexivity.
Qed.

Lemma logger_calls_append (cs : list (string * LoggerCall)) :
  forall lg,
    Forall (fun c => resets_log (snd c) = false) cs ->
    exists added,
      events (logger_calls cs lg) = events lg ++ added /\
      List.length added = List.length cs.
Proof.
  induction cs as [|[now c] r IH]; intros lg H; simpl.
  - exists []. now rewrite app_nil_r.
  - inversion H as [|x l Hc Hr]; subst. simpl in Hc.
    destruct (logger_call_appends now c lg Hc) as [e He].
    destruct (IH (logger_call now c lg) Hr) as [added [Ha Hl]].
    exists (e :: added). split.
    + rewrite Ha, He, <- app_assoc. reflexivity.
    + simpl. now rewrite Hl.
Qed.

(** C5, as the code has it. For every sequence of logger calls other than
    [log_query_start] and [clear], every Event present in the log before
    the calls is still present, unchanged and at the same position, after
    them: each such call appends one Event and does nothing else to the
    log. *)
Theorem appended_events_survive
    (cs : list (string * LoggerCall)) (lg : WebLogger)
    (H : Forall (fun c => resets_log (snd c) = false) cs) :
  (forall i e, nth_error (events lg) i = Some e ->
               nth_error (events (logger_calls cs lg)) i = Some e) /\
  List.length (events (logger_calls cs lg)) =
    (List.length (events lg) + List.length cs)%nat.
Proof.
  destruct (logger_calls_append cs lg H) as [added [Ha Hl]].
  rewrite Ha. split.
  - intros i e Hi. rewrite nth_error_app1; [exact Hi|].
    apply nth_error_Some. congruence.
  - rewrite length_app. now rewrite Hl.
Qed.

Lemma appended_events_survive_witness :
  Forall (fun c => resets_log (snd c) = false) two_appends /\
  List.length
    (events (logger_calls two_appends (log_query_start "t0" (VStr "q") WebLogger_init)))
  = 3%nat.
Proof.
  assert (H : Forall (fun c => resets_log (snd c) = false) two_appends).
  { repeat constructor. }
  split; [exact H|].
  exact (proj2 (appended_events_survive two_appends
                  (log_query_start "t0" (VStr "q") WebLogger_init) H)).
Defined.

(** C5 as stated fails: [clear] (and [log_query_start]) empty the log, so
    an Event that was at position 0 is gone after the call. *)
Lemma clear_removes_appended_events :
  let lg := log_error "t1" "boom" WebLogger_init in
  nth_error (events lg) 0 = Some (mkEvent "error" "t1" [("error", VStr "boom")] None) /\
  nth_error (events (logger_call "t2" Call_clear lg)) 0 = None /\
  nth_error (events (logger_call "t2" (Call_log_query_start (VStr "q")) lg)) 0
    = Some (mkEvent "query_start" "t2" [("query", VStr "q")] None).
Proof.
  repeat split.
Qed.

(** *** Steps *)

Lemma count_type_app (t : string) (a b : list Event) :
  count_type t (a ++ b) = (count_type t a + count_type t b)%nat.
Proof.
  unfold count_type. now rewrite filter_app, length_app.
Qed.

Lemma bump_count (seen : Z) (evs : list Event) :
  fold_left bump evs seen = seen + Z.of_nat (count_type "model_response" evs).
Proof.
  revert seen. induction evs as [|e r IH]; intros seen; simpl.
  - unfold count_type; simpl. lia.
  - rewrite IH. unfold bump, count_type. simpl.
    destruct (is_type "model_response" e); simpl; lia.
Qed.

Lemma stepped_app (a b : list Event) :
  forall seen,
    stepped seen (a ++ b) <-> stepped seen a /\ stepped (fold_left bump a seen) b.
Proof.
  induction a as [|e r IH]; intros seen; simpl.
  - tauto.
  - rewrite IH. tauto.
Qed.

Lemma stepped_nth (evs : list Event) (i : nat) (e : Event) :
  stepped 0 evs ->
  nth_error evs i = Some e ->
  step_ok (Z.of_nat (count_type "model_response" (firstn i evs))) e.
Proof.
  intros Hs Hi.
  destruct (nth_error_split evs i Hi) as [l1 [l2 [Heq Hlen]]].
  subst evs. rewrite stepped_app in Hs. destruct Hs as [_ [Hs _]].
  rewrite bump_count in Hs.
  replace (firstn i (l1 ++ e :: l2)) with l1.
  - exact Hs.
  - rewrite <- Hlen, firstn_app, Nat.sub_diag, firstn_all. simpl.
    now rewrite app_nil_r.
Qed.

Lemma stepped_snoc (evs : list Event) (e : Event) :
  stepped 0 evs ->
  step_ok (Z.of_nat (count_type "model_response" evs)) e ->
  stepped 0 (evs ++ [e]).
Proof.
  intros Hs He. apply stepped_app. split; [exact Hs|].
  rewrite bump_count. simpl. split; [exact He | exact I].
Qed.

Ltac step_cases :=
  unfold step_ok; simpl;
  repeat split; intros;
  repeat match goal with
         | H : _ \/ _ |- _ => destruct H
         end;
  try discriminate; try reflexivity.

Lemma logger_call_inv (now : string) (c : LoggerCall) (lg : WebLogger) :
  logger_inv lg -> logger_inv (logger_call now c lg).
Proof.
  intros [Hs Hc]. destruct c; simpl; unfold logger_inv; simpl.
  - split; [|reflexivity]. split; [step_cases | exact I].
  - split.
    + apply stepped_snoc; [exact Hs|]. rewrite <- Hc. step_cases.
    + rewrite count_type_app, Hc. unfold count_type. simpl. lia.
  - split.
    + apply stepped_snoc; [exact Hs|]. rewrite <- Hc. step_cases.
    + rewrite count_type_app, Hc. unfold count_type. simpl. lia.
  - split.
    + apply stepped_snoc; [exact Hs|]. rewrite <- Hc. step_cases.
    + rewrite count_type_app, Hc. unfold count_type. simpl. lia.
  - split.
    + apply stepped_snoc; [exact Hs|]. step_cases.
    + rewrite count_type_app, Hc. unfold count_type. simpl. lia.
  - split.
    + apply stepped_snoc; [exact Hs|]. step_cases.
    + rewrite count_type_app, Hc. unfold count_type. simpl. lia.
  - split.
    + apply stepped_snoc; [exact Hs|]. rewrite <- Hc. step_cases.
    + rewrite count_type_app, Hc. unfold count_type. simpl. lia.
  - split; [exact I | reflexivity].
Qed.

Lemma logger_calls_inv (cs : list (string * LoggerCall)) :
  forall lg, logger_inv lg -> logger_inv (logger_calls cs lg).
Proof.
  induction cs as [|[now c] r IH]; intros lg H; simpl; [exact H|].
  apply IH, logger_call_inv, H.
Qed.

Lemma log_query_start_inv (now : string) (q : Value) (lg : WebLogger) :
  logger_inv (log_query_start now q lg).
Proof.
  unfold logger_inv; simpl. split; [|reflexivity].
  split; [step_cases | exact I].
Qed.

Lemma stepped_model_responses (evs : list Event) :
  forall seen,
    stepped seen evs ->
    map step (filter (is_type "model_response") evs) =
    map (fun k => Some (seen + Z.of_nat k))
      (seq 1 (count_type "model_response" evs)).
Proof.
  induction evs as [|e r IH]; intros seen Hs; simpl; [reflexivity|].
  destruct Hs as [[Hm _] Hr]. unfold count_type. simpl.
  unfold bump in Hr.
  destruct (is_type "model_response" e) eqn:He; simpl.
  - unfold is_type in He. apply String.eqb_eq in He.
    rewrite (Hm He), (IH _ Hr). f_equal.
    fold (count_type "model_response" r).
    rewrite <- (seq_shift (count_type "model_response" r) 1), map_map.
    apply map_ext. intros k. f_equal. lia.
  - apply IH, Hr.
Qed.

(** C10. Whatever state a [WebLogger] is in, after [log_query_start] and
    any further sequence of logger calls: an Event at position [i] of the
    log carries step [seen + 1] if it is a [model_response], step [seen]
    if it is a [code_execution], [repl_output] or [tool_execution], and no
    step if it is a [query_start], [final_answer] or [error], where [seen]
    is the number of [model_response] Events before position [i]; so the
    [model_response] Events carry 1, 2, 3, ... in append order. *)
Theorem steps_follow_model_responses
    (lg0 : WebLogger) (now : string) (q : Value)
    (cs : list (string * LoggerCall)) :
  let evs := events (logger_calls cs (log_query_start now q lg0)) in
  (forall i e, nth_error evs i = Some e ->
     step_ok (Z.of_nat (count_type "model_response" (firstn i evs))) e) /\
  map step (filter (is_type "model_response") evs) =
    map (fun k => Some (Z.of_nat k)) (seq 1 (count_type "model_response" evs)).
Proof.
  intros evs.
  destruct (logger_calls_inv cs _ (log_query_start_inv now q lg0)) as [Hs _].
  fold evs in Hs. split.
  - intros i e Hi. now apply stepped_nth.
  - rewrite (stepped_model_responses evs 0 Hs). apply map_ext. intros k.
    f_equal.
Qed.

(** ** The agent loop *)

Lemma model_calls_app (a b : list Action) :
  model_calls (a ++ b) = (model_calls a + model_calls b)%nat.
Proof.
  unfold model_calls. now rewrite filter_app, length_app.
Qed.

Lemma appended_app (a b : list Action) :
  appended (a ++ b) = appended a ++ appended b.
Proof.
  unfold appended. apply flat_map_app.
Qed.

Lemma callbacks_app (a b : list Action) :
  callbacks (a ++ b) = callbacks a ++ callbacks b.
Proof.
  unfold callbacks. apply flat_map_app.
Qed.

Lemma model_calls_observe (cb : bool) (e : Event) :
  model_calls (observe cb e) = 0%nat.
Proof.
  destruct cb; reflexivity.
Qed.

Lemma appended_observe (cb : bool) (e : Event) :
  appended (observe cb e) = [e].
Proof.
  destruct cb; reflexivity.
Qed.

Lemma callbacks_observe (cb : bool) (e : Event) :
  callbacks (observe cb e) = if cb then [e] else [].
Proof.
  destruct cb; reflexivity.
Qed.

Lemma model_calls_log_actions (tr : list Action) :
  forallb log_action tr = true -> model_calls tr = 0%nat.
Proof.
  induction tr as [|a r IH]; simpl; [reflexivity|].
  intros H. apply andb_true_iff in H. destruct H as [Ha Hr].
  destruct a; try discriminate; exact (IH Hr).
Qed.

Lemma callbacks_log_actions (tr : list Action) :
  forallb log_action tr = true -> callbacks tr = [].
Proof.
  induction tr as [|a r IH]; simpl; [reflexivity|].
  intros H. apply andb_true_iff in H. destruct H as [Ha Hr].
  destruct a; try discriminate; exact (IH Hr).
Qed.

Lemma model_calls_observed (cb : bool) (evs : list Event) :
  model_calls (flat_map (observe cb) evs) = 0%nat.
Proof.
  induction evs as [|e r IH]; simpl; [reflexivity|].
  destruct cb; exact IH.
Qed.

Lemma appended_observed (cb : bool) (evs : list Event) :
  appended (flat_map (observe cb) evs) = evs.
Proof.
  induction evs as [|e r IH]; simpl; [reflexivity|].
  destruct cb; simpl; now rewrite IH.
Qed.

Lemma callbacks_observed (cb : bool) (evs : list Event) :
  callbacks (flat_map (observe cb) evs) = if cb then evs else [].
Proof.
  induction evs as [|e r IH]; simpl; [now destruct cb|].
  destruct cb; simpl; now rewrite IH.
Qed.

Lemma count_type_none (t : string) (evs : list Event) :
  Forall (fun e => type e <> t) evs -> count_type t evs = 0%nat.
Proof.
  induction 1 as [|e r He _ IH]; [reflexivity|].
  unfold count_type in *. simpl. unfold is_type at 1.
  destruct (String.eqb_spec (type e) t); [contradiction|exact IH].
Qed.

Lemma synchronous_app (a b : list Action) :
  synchronous a -> synchronous b -> synchronous (a ++ b).
Proof.
  induction 1; intros Hb; simpl; [exact Hb| |]; constructor; auto.
Qed.

Lemma synchronous_observe (e : Event) : synchronous (observe true e).
Proof.
  repeat constructor.
Qed.

Lemma synchronous_observed (evs : list Event) :
  synchronous (flat_map (observe true) evs).
Proof.
  induction evs as [|e r IH]; simpl; constructor. exact IH.
Qed.

Lemma synchronous_concat (trs : list (list Action)) :
  Forall synchronous trs -> synchronous (List.concat trs).
Proof.
  induction 1; simpl; [constructor|]. now apply synchronous_app.
Qed.

Section LoopFacts.
Variable C : Collaborators.

Lemma log_run (c : LoggerCall) (st : Run C) :
  log C c st =
  (inr tt,
   let lg := logger_call (clock C (world st)) c (logger (self st)) in
   mkRun (set_logger lg (self st)) (tick C (world st))
     (trace st ++ log_actions c lg)).
Proof.
  unfold log, bind, external, update_self, read, emit, clock, tick. simpl.
  destruct (now_isoformat C (world st)) as [now w]. reflexivity.
Qed.

Lemma last_snoc (l : list Event) (e : Event) :
  last (map Some (l ++ [e])) None = Some e.
Proof.
  rewrite map_app. simpl. apply last_last.
Qed.

Lemma stream_run (st : Run C) :
  stream_last_event C st =
  if event_callback (self st) then
    match last (map Some (events (logger (self st)))) None with
    | Some event => (inr tt, mkRun (self st) (world st) (trace st ++ [ACallback event]))
    | None => (inl (IndexError "list index out of range"), st)
    end
  else (inr tt, st).
Proof.
  unfold stream_last_event, bind, read. simpl.
  destruct (event_callback (self st)); [|reflexivity].
  destruct (last (map Some (events (logger (self st)))) None); reflexivity.
Qed.

(** A logging call of the loop followed by its [if self.event_callback]
    block, for a call that appends [e]. *)
Lemma log_stream_run (c : LoggerCall) (st : Run C) (e : Event) :
  resets_log c = false ->
  events (logger_call (clock C (world st)) c (logger (self st))) =
    events (logger (self st)) ++ [e] ->
  bind (log C c) (fun _ => stream_last_event C) st =
  (inr tt,
   mkRun (set_logger (logger_call (clock C (world st)) c (logger (self st))) (self st))
     (tick C (world st))
     (trace st ++ observe (event_callback (self st)) e)).
Proof.
  intros Hr He. unfold bind. rewrite log_run. cbv zeta.
  rewrite stream_run. simpl. rewrite He, last_snoc.
  unfold log_actions. rewrite Hr, He, last_snoc.
  destruct c; try discriminate; simpl;
    destruct (event_callback (self st)); simpl;
    rewrite <- ?app_assoc; reflexivity.
Qed.

Lemma setup_context_run (context q : Value) (st : Run C) :
  let q' := match q with VNone => DEFAULT_QUERY C | _ => q end in
  let now := clock C (world st) in
  let qs := mkEvent "query_start" now [("query", q')] None in
  let repl := REPLEnv C (base_url (self st)) context (recursive_model (self st))
                (tick C (world st)) in
  setup_context C context q st =
  (match fst repl with
   | inl e => inl e
   | inr _ => inr (build_system_prompt C)
   end,
   mkRun
     (set_messages (build_system_prompt C)
        (set_logger (log_query_start now q' (logger (self st)))
           (set_query q' (self st))))
     (snd repl)
     (trace st ++ AClear :: observe (event_callback (self st)) qs)).
Proof.
  intros q' now qs repl. unfold setup_context. fold q'.
  unfold bind at 1. unfold update_self at 1.
  unfold bind at 1. rewrite log_run. cbv zeta. simpl.
  unfold bind at 1. rewrite stream_run. simpl.
  fold now. unfold log_actions. simpl.
  destruct (event_callback (self st)); simpl;
    unfold bind, update_self, read, external; simpl;
    fold repl; destruct repl as [[e|[]] w2]; simpl;
    rewrite <- ?app_assoc; reflexivity.
Qed.

(** With no iteration to run, [completion] makes no Model call at all and
    appends no [final_answer] Event: after [setup_context] it reads the
    loop variable, which was never bound. *)
Lemma completion_without_iterations (context q : Value) (cb : bool) (st : Run C) :
  max_iterations (self st) <= 0 ->
  exists e st' qs,
    completion C context q cb st = (inl e, st') /\
    trace st' = trace st ++ AClear :: observe cb qs /\
    type qs = "query_start" /\
    e = match fst (REPLEnv C (base_url (self st)) context
                     (recursive_model (self st)) (tick C (world st))) with
        | inl fault => fault
        | inr _ => UnboundLocalError "iteration"
        end.
Proof.
  intros Hn. unfold completion.
  unfold bind at 1. unfold update_self at 1.
  unfold bind at 1. rewrite setup_context_run. cbv zeta. simpl.
  destruct (REPLEnv C (base_url (self st)) context (recursive_model (self st))
              (tick C (world st))) as [[e|[]] w2] eqn:Hrepl; simpl.
  - eexists; eexists; eexists. split; [reflexivity|]. simpl.
    split; [reflexivity|]. split; reflexivity.
  - unfold bind, update_self, read. simpl.
    replace (Z.to_nat (max_iterations (self st))) with 0%nat by lia. simpl.
    eexists; eexists; eexists. split; [reflexivity|]. simpl.
    split; [reflexivity|]. split; reflexivity.
Qed.

Lemma set_logger_twice (lg lg' : WebLogger) (r : RLM_WEB) :
  set_logger lg (set_logger lg' r) = set_logger lg r.
Proof.
  reflexivity.
Qed.

Lemma set_logger_same (r : RLM_WEB) : set_logger (logger r) r = r.
Proof.
  destruct r; reflexivity.
Qed.

(** [for execution in new_executions]: one [code_execution] Event per new
    record, in order, each observed at once. *)
Lemma log_new_executions_run (l : list Execution) :
  forall st : Run C,
  exists ces lg w',
    log_new_executions C l st =
    (inr tt,
     mkRun (set_logger lg (self st)) w'
       (trace st ++ flat_map (observe (event_callback (self st))) ces)) /\
    events lg = events (logger (self st)) ++ ces /\
    map type ces = map (fun _ => "code_execution") l /\
    map data ces = map execution_data l.
Proof.
  induction l as [|x r IH]; intros st; simpl.
  - exists [], (logger (self st)), (world st). simpl.
    rewrite !app_nil_r, set_logger_same. destruct st; repeat split.
  - unfold bind at 1. rewrite log_run. cbv zeta.
    unfold bind at 1. rewrite stream_run. cbn [self trace world].
    change (event_callback (set_logger _ (self st))) with (event_callback (self st)).
    cbn [logger set_logger logger_call log_code_execution events].
    rewrite last_snoc.
    set (e := mkEvent "code_execution" _ _ _).
    set (lg1 := log_code_execution _ _ _ _ _ _).
    assert (Hact : log_actions (Call_log_code_execution (code x) (stdout x)
                                  (stderr x) (execution_time x)) lg1 = [AAppend e]).
    { unfold log_actions, lg1. simpl. now rewrite last_snoc. }
    rewrite Hact.
    destruct (event_callback (self st)) eqn:Hcb.
    + destruct (IH (mkRun (set_logger lg1 (self st)) (tick C (world st))
                      ((trace st ++ [AAppend e]) ++ [ACallback e])))
        as [ces [lg [w' [Hrun [Hev [Hty Hda]]]]]].
      exists (e :: ces), lg, w'. rewrite Hrun. cbn [self trace].
      rewrite set_logger_twice.
      change (event_callback (set_logger lg1 (self st))) with (event_callback (self st)).
      rewrite Hcb. split; [|split; [|split]].
      * simpl. now rewrite <- !app_assoc.
      * rewrite Hev. unfold lg1. simpl. now rewrite <- app_assoc.
      * simpl. now rewrite Hty.
      * simpl. now rewrite Hda.
    + destruct (IH (mkRun (set_logger lg1 (self st)) (tick C (world st))
                      (trace st ++ [AAppend e])))
        as [ces [lg [w' [Hrun [Hev [Hty Hda]]]]]].
      exists (e :: ces), lg, w'. rewrite Hrun. cbn [self trace].
      rewrite set_logger_twice.
      change (event_callback (set_logger lg1 (self st))) with (event_callback (self st)).
      rewrite Hcb. split; [|split; [|split]].
      * simpl. now rewrite <- !app_assoc.
      * rewrite Hev. unfold lg1. simpl. now rewrite <- app_assoc.
      * simpl. now rewrite Hty.
      * simpl. now rewrite Hda.
Qed.

(** The logger calls a collaborator makes: they act on the log only, and
    no callback follows them. *)
Lemma logs_run (cs : list LoggerCall) :
  forall st : Run C,
  exists lg w' tr,
    logs C cs st = (inr tt, mkRun (set_logger lg (self st)) w' (trace st ++ tr)) /\
    check_logged cs tr /\
    (Forall (fun c => quiet_call c = true) cs ->
       events lg = events (logger (self st)) ++ appended tr).
Proof.
  induction cs as [|c r IH]; intros st; simpl.
  - exists (logger (self st)), (world st), []. simpl.
    rewrite !app_nil_r, set_logger_same. destruct st. split; [reflexivity|].
    split; [|reflexivity]. repeat split. constructor.
  - unfold bind at 1. rewrite log_run. cbv zeta.
    set (lg1 := logger_call _ c _).
    destruct (IH (mkRun (set_logger lg1 (self st)) (tick C (world st))
                    (trace st ++ log_actions c lg1)))
      as [lg [w' [tr [Hrun [[Hact [_ Hq]] Hev]]]]].
    exists lg, w', (log_actions c lg1 ++ tr). rewrite Hrun. cbn [self trace].
    rewrite set_logger_twice, <- app_assoc. split; [reflexivity|].
    split; [split; [|split]|].
    + rewrite forallb_app, Hact, andb_true_r. unfold log_actions.
      destruct c; simpl; try reflexivity;
        destruct (last _ None); reflexivity.
    + discriminate.
    + intros Hall. inversion Hall as [|c' r' Hc Hr]; subst.
      destruct (Hq Hr) as [Hlen Hty]. rewrite appended_app, length_app, Hlen.
      destruct c; try discriminate; unfold lg1, log_actions; simpl;
        rewrite last_snoc; simpl; (split; [reflexivity|]);
        constructor; auto.
    + intros Hall. inversion Hall as [|c' r' Hc Hr]; subst.
      specialize (Hev Hr). cbn [logger set_logger self] in Hev.
      rewrite appended_app, Hev.
      destruct c; try discriminate; unfold lg1, log_actions; simpl;
        rewrite last_snoc; simpl; rewrite <- app_assoc; reflexivity.
Qed.

(** The same, in front of the rest of the body. *)
Lemma log_stream_bind {A : Type} (c : LoggerCall) (k : M C A) (st : Run C)
    (e : Event) :
  resets_log c = false ->
  events (logger_call (clock C (world st)) c (logger (self st))) =
    events (logger (self st)) ++ [e] ->
  bind (log C c) (fun _ => bind (stream_last_event C) (fun _ => k)) st =
  k (mkRun (set_logger (logger_call (clock C (world st)) c (logger (self st))) (self st))
       (tick C (world st))
       (trace st ++ observe (event_callback (self st)) e)).
Proof.
  intros Hr He.
  pose proof (log_stream_run c st e Hr He) as H.
  unfold bind in *.
  destruct (log C c st) as [[x|[]] st1]; [discriminate|].
  destruct (stream_last_event C st1) as [[x|[]] st2]; [discriminate|].
  now injection H as ->.
Qed.

(** C8. In an iteration whose model response has code blocks and whose
    final-answer check matches (the body returns the answer [a]): the
    executor is dispatched on the reply with the messages and the
    execution records of the start of the iteration, it returns [out],
    and what the iteration does is, in this order, the Model call, the
    [model_response] Event, the dispatch of the code, one
    [code_execution] Event for each record the executor added (the
    records of [out] beyond those held before, in their order and with
    their data), only then the final-answer check (with whatever it
    logs), and last the [final_answer] Event, which is the last Event of
    the log.  Each Event the loop appends is handed to the callback at
    once when one is registered. *)
Theorem code_runs_before_final_answer_check
    (q : Value) (i : Z) (st st' : Run C) (response a : string)
    (blocks : list string)
    (Hreply : fst (llm_completion C
                     (messages (self st) ++ [next_action_prompt C q i false])
                     (world st)) = inr response)
    (Hcode : find_code_blocks C response = Some blocks)
    (Hret : loop_body C q i st = (inr (Some a), st')) :
  let cb := event_callback (self st) in
  let prompt := messages (self st) ++ [next_action_prompt C q i false] in
  let dispatch :=
    process_code_execution C response (messages (self st))
      (executions (self st)) (tick C (snd (llm_completion C prompt (world st)))) in
  exists out mr ces chk fa pre,
    fst dispatch = inr out /\
    executions (self st') = snd out /\
    let new_executions :=
      skipn (List.length (executions (self st))) (snd out) in
    trace st' =
      trace st ++
      [AModel prompt] ++
      observe cb mr ++
      [ADispatch response] ++ flat_map (observe cb) ces ++
      [ACheck response] ++ chk ++
      observe cb fa /\
    type mr = "model_response" /\
    map type ces = map (fun _ => "code_execution") new_executions /\
    map data ces = map execution_data new_executions /\
    forallb log_action chk = true /\
    type fa = "final_answer" /\
    data fa = [("answer", VStr a)] /\
    events (logger (self st')) = pre ++ [fa].
Proof.
  cbv zeta. set (cb := event_callback (self st)).
  unfold loop_body in Hret.
  unfold bind at 1 in Hret. unfold read at 1 in Hret.
  unfold bind at 1 in Hret. unfold call_llm in Hret.
  unfold bind at 1 in Hret. unfold emit at 1 in Hret.
  unfold external at 1 in Hret. cbn [self world trace] in Hret.
  destruct (llm_completion C _ (world st)) as [reply w1].
  simpl in Hreply. subst reply. cbn [snd].
  rewrite Hcode in Hret.
  rewrite (log_stream_bind _ _ _ (mkEvent "model_response" (clock C w1)
             [("response", VStr response); ("has_tool_calls", VBool true)]
             (Some (conversation_step (logger (self st)) + 1))))
    in Hret by reflexivity.
  cbn [self world trace] in Hret.
  unfold bind at 1 in Hret.
  unfold bind at 1 in Hret. unfold read at 1 in Hret.
  unfold bind at 1 in Hret. unfold read at 1 in Hret.
  unfold bind at 1 in Hret. unfold emit at 1 in Hret.
  unfold bind at 1 in Hret. unfold external at 1 in Hret.
  cbn [self world trace executions messages set_logger] in Hret.
  destruct (process_code_execution C response (messages (self st))
              (executions (self st)) (tick C w1)) as [[e|out] w2] eqn:Hproc;
    [discriminate|].
  unfold bind at 1 in Hret. unfold update_self at 1 in Hret.
  unfold bind at 1 in Hret. unfold update_self at 1 in Hret.
  cbn [self world trace] in Hret.
  match type of Hret with
  | context [log_new_executions C ?l ?s] =>
      destruct (log_new_executions_run l s) as [ces [lg [w3 [Hrun [Hev [Hty Hda]]]]]]
  end.
  rewrite Hrun in Hret. clear Hrun.
  cbn [self world trace event_callback set_executions set_messages set_logger]
    in Hret.
  unfold bind at 1 in Hret. unfold emit at 1 in Hret.
  unfold bind at 1 in Hret. unfold external at 1 in Hret.
  cbn [self world trace] in Hret.
  destruct (check_for_final_answer C response w3) as [[cs res] w4].
  cbn [fst snd] in Hret.
  unfold bind at 1 in Hret.
  match type of Hret with
  | context [logs C cs ?s] =>
      destruct (logs_run cs s) as [lg' [w5 [chk [Hrun [[Hchk _] _]]]]]
  end.
  rewrite Hrun in Hret. clear Hrun.
  destruct res as [e|o]; [discriminate|].
  unfold bind at 1 in Hret. unfold ret at 1 in Hret.
  destruct o as [a0|]; [|discriminate].
  destruct (truthy_opt (Some a0)); [|discriminate].
  rewrite (log_stream_bind _ _ _ (mkEvent "final_answer" (clock C w5)
             [("answer", VStr a0)] None)) in Hret by reflexivity.
  unfold ret in Hret. injection Hret as Ha Hst. subst a0 st'.
  cbn [self world trace event_callback set_logger logger logger_call
       log_final_response events executions set_executions set_messages fst].
  exists out; eexists; exists ces, chk; eexists; eexists.
  split; [reflexivity|]. split; [reflexivity|].
  split.
  { fold cb. rewrite <- !app_assoc. reflexivity. }
  repeat split; try eassumption; reflexivity.
Qed.

(** The end of the loop body, from the final-answer check on, in the
    equation [H] of a run: the check, what it logs, and the three ways on
    from there. *)
Ltac run_check_tail H response :=
  unfold bind at 1 in H; unfold emit at 1 in H;
  unfold bind at 1 in H; unfold external at 1 in H;
  cbn [self world trace] in H;
  match type of H with
  | context [check_for_final_answer C response ?w] =>
      let Hchk := fresh "Hchk" in
      destruct (check_for_final_answer C response w) as [[cs res] w4] eqn:Hchk;
      cbn [fst snd] in H;
      unfold bind at 1 in H;
      match type of H with
      | context [logs C cs ?s] =>
          destruct (logs_run cs s) as [lg' [w5 [chk [Hrun [Hlogged _]]]]];
          rewrite Hrun in H; clear Hrun;
          assert (Hcs : fst (fst (check_for_final_answer C response w)) = cs)
            by (now rewrite Hchk);
          assert (Hres : snd (fst (check_for_final_answer C response w)) = res)
            by (now rewrite Hchk);
          rewrite <- Hcs in Hlogged;
          destruct res as [e|o];
          [ injection H as <- <-
          | unfold bind at 1 in H; unfold ret at 1 in H;
            destruct (truthy_opt o) eqn:Htruthy;
            [ destruct o as [a|]; [|discriminate];
              rewrite (log_stream_bind _ _ _ (mkEvent "final_answer" (clock C w5)
                         [("answer", VStr a)] None)) in H by reflexivity;
              unfold ret in H; injection H as <- <-
            | assert (Hnone : (if truthy_opt o then
                                 match o with
                                 | Some a => inr (Some a)
                                 | None => inr None
                                 end
                               else inr None) = (inr None : Result (option string)))
                by (now rewrite Htruthy);
              unfold ret in H; injection H as <- <- ] ]
      end
  end;
  cbn [fst snd trace self event_callback set_logger set_messages set_executions].

(** What one iteration adds to the trace, for every outcome. *)
Lemma loop_body_trace (q : Value) (i : Z) (st st' : Run C)
    (r : Result (option string)) :
  loop_body C q i st = (r, st') ->
  exists tr,
    trace st' = trace st ++ tr /\
    iteration_trace C (event_callback (self st)) r tr /\
    event_callback (self st') = event_callback (self st).
Proof.
  intros H. unfold loop_body in H.
  unfold bind at 1 in H. unfold read at 1 in H.
  unfold bind at 1 in H. unfold call_llm in H.
  unfold bind at 1 in H. unfold emit at 1 in H.
  unfold external at 1 in H. cbn [self world trace] in H.
  set (msgs := messages (self st) ++ [next_action_prompt C q i false]) in *.
  destruct (llm_completion C msgs (world st)) as [[e|response] w1] eqn:Hllm.
  { injection H as <- <-. exists [AModel msgs]. cbn [trace self]. repeat split.
    apply it_model_raises with (w := world st). now rewrite Hllm. }
  set (cb := event_callback (self st)).
  destruct (find_code_blocks C response) as [blocks|] eqn:Hcode.
  - rewrite (log_stream_bind _ _ _ (mkEvent "model_response" (clock C w1)
               [("response", VStr response); ("has_tool_calls", VBool true)]
               (Some (conversation_step (logger (self st)) + 1))))
      in H by reflexivity.
    cbn [self world trace] in H. fold cb in H.
    set (mr := mkEvent "model_response" _ _ _) in H.
    unfold bind at 1 in H.
    unfold bind at 1 in H. unfold read at 1 in H.
    unfold bind at 1 in H. unfold read at 1 in H.
    unfold bind at 1 in H. unfold emit at 1 in H.
    unfold bind at 1 in H. unfold external at 1 in H.
    cbn [self world trace executions messages set_logger] in H.
    destruct (process_code_execution C response (messages (self st))
                (executions (self st)) (tick C w1)) as [[e|out] w2] eqn:Hproc.
    { injection H as <- <-.
      exists ([AModel msgs] ++ observe cb mr ++ [ADispatch response]).
      cbn [trace self event_callback set_logger]. split.
      - now rewrite <- !app_assoc.
      - split; [|reflexivity].
        eapply it_dispatch_raises with (w := tick C w1); [reflexivity|].
        now rewrite Hproc. }
    unfold bind at 1 in H. unfold update_self at 1 in H.
    unfold bind at 1 in H. unfold update_self at 1 in H.
    cbn [self world trace] in H.
    match type of H with
    | context [log_new_executions C ?l ?s] =>
        destruct (log_new_executions_run l s)
          as [ces [lg [w3 [Hrun [Hev [Hty Hda]]]]]]
    end.
    rewrite Hrun in H. clear Hrun.
    cbn [self world trace event_callback set_executions set_messages set_logger]
      in H.
    fold cb in H.
    assert (Hmid : dispatched cb response
                     (ADispatch response :: flat_map (observe cb) ces)).
    { right. exists ces. split; [reflexivity|].
      clear - Hty. revert Hty.
      generalize (skipn (List.length (executions (self st))) (snd out)).
      induction ces as [|c r0 IH]; intros [|x l] H; try discriminate;
        constructor.
      - now injection H.
      - injection H as _ H. now apply (IH l). }
    run_check_tail H response.
    + exists ([AModel msgs] ++ observe cb mr ++
              (ADispatch response :: flat_map (observe cb) ces) ++
              [ACheck response] ++ chk).
      split; [simpl; now rewrite <- !app_assoc|]. split; [|reflexivity].
      eapply it_check_raises; eassumption || reflexivity.
    + fold cb.
      exists ([AModel msgs] ++ observe cb mr ++
              (ADispatch response :: flat_map (observe cb) ces) ++
              [ACheck response] ++ chk ++
              observe cb (mkEvent "final_answer" (clock C w5)
                            [("answer", VStr a)] None)).
      split; [simpl; now rewrite <- !app_assoc|]. split; [|reflexivity].
      eapply it_returns; eassumption || reflexivity.
    + exists ([AModel msgs] ++ observe cb mr ++
              (ADispatch response :: flat_map (observe cb) ces) ++
              [ACheck response] ++ chk).
      split; [simpl; now rewrite <- !app_assoc|]. split; [|reflexivity].
      eapply it_continues; eassumption || reflexivity.
  - rewrite (log_stream_bind _ _ _ (mkEvent "model_response" (clock C w1)
               [("response", VStr response); ("has_tool_calls", VBool false)]
               (Some (conversation_step (logger (self st)) + 1))))
      in H by reflexivity.
    cbn [self world trace] in H. fold cb in H.
    set (mr := mkEvent "model_response" _ _ _) in H.
    unfold bind at 1 in H.
    unfold bind at 1 in H. unfold read at 1 in H.
    unfold update_self at 1 in H.
    cbn [self world trace messages set_logger] in H.
    assert (Hmid : dispatched cb response []) by (left; reflexivity).
    run_check_tail H response.
    + exists ([AModel msgs] ++ observe cb mr ++ [] ++ [ACheck response] ++ chk).
      split; [simpl; now rewrite <- !app_assoc|]. split; [|reflexivity].
      eapply it_check_raises; eassumption || reflexivity.
    + fold cb.
      exists ([AModel msgs] ++ observe cb mr ++ [] ++ [ACheck response] ++ chk ++
              observe cb (mkEvent "final_answer" (clock C w5)
                            [("answer", VStr a)] None)).
      split; [simpl; now rewrite <- !app_assoc|]. split; [|reflexivity].
      eapply it_returns; eassumption || reflexivity.
    + exists ([AModel msgs] ++ observe cb mr ++ [] ++ [ACheck response] ++ chk).
      split; [simpl; now rewrite <- !app_assoc|]. split; [|reflexivity].
      eapply it_continues; eassumption || reflexivity.
Qed.

(** The iterations of the [for] loop, for every outcome. *)
Lemma for_iteration_trace (q : Value) (n : nat) :
  forall (i : Z) (b : option Z) (st st' : Run C) (r : Result LoopExit),
    for_iteration C q n i b st = (r, st') ->
    exists trs,
      trace st' = trace st ++ List.concat trs /\
      loop_trace C (event_callback (self st)) n r trs /\
      event_callback (self st') = event_callback (self st) /\
      (forall b', r = inr (Exhausted b') ->
                  b' = match n with
                       | O => b
                       | S k => Some (i + Z.of_nat k)
                       end).
Proof.
  induction n as [|n IH]; intros i b st st' r H; simpl in H.
  - unfold ret in H. injection H as <- <-. exists []. simpl.
    rewrite app_nil_r. repeat split; [constructor|].
    intros b' Hb. now injection Hb.
  - unfold bind at 1 in H.
    destruct (loop_body C q i st) as [r1 st1] eqn:Hbody.
    destruct (loop_body_trace q i st st1 r1 Hbody) as [tr1 [Htr1 [Hit1 Hcb1]]].
    destruct r1 as [e|[a|]].
    + injection H as <- <-. exists [tr1]. simpl. rewrite app_nil_r.
      split; [exact Htr1|]. split; [|split; [exact Hcb1|discriminate]].
      exists [], tr1. simpl. repeat split; [lia|constructor|exact Hit1].
    + unfold ret in H. injection H as <- <-. exists [tr1]. simpl.
      rewrite app_nil_r.
      split; [exact Htr1|]. split; [|split; [exact Hcb1|discriminate]].
      exists [], tr1. simpl. repeat split; [lia|constructor|exact Hit1].
    + destruct (IH _ _ _ _ _ H) as [trs [Htr [Hloop [Hcb Hb]]]].
      rewrite Hcb1 in Hloop, Hcb.
      exists (tr1 :: trs). simpl. rewrite Htr, Htr1, <- app_assoc.
      split; [reflexivity|]. split; [|split; [exact Hcb|]].
      * destruct r as [e|[a|b']]; simpl in *.
        -- destruct Hloop as [init [final [-> [Hlen [Hinit Hfinal]]]]].
           exists (tr1 :: init), final. simpl. repeat split; try assumption.
           ++ lia.
           ++ now constructor.
        -- destruct Hloop as [init [final [-> [Hlen [Hinit Hfinal]]]]].
           exists (tr1 :: init), final. simpl. repeat split; try assumption.
           ++ lia.
           ++ now constructor.
        -- destruct Hloop as [Hlen Hall]. split; [lia|now constructor].
      * intros b' Hr. rewrite (Hb b' Hr). destruct n; f_equal; lia.
Qed.

(** A whole run of [completion], for every outcome: the [query_start]
    Event, then either a REPL that does not start, or the iterations and
    the way the run ends. *)
Lemma completion_trace (context q : Value) (cb : bool) (st st' : Run C)
    (r : Result Completion) :
  completion C context q cb st = (r, st') ->
  exists qs,
    type qs = "query_start" /\
    ((exists e,
        r = inl e /\
        fst (REPLEnv C (base_url (self st)) context (recursive_model (self st))
               (tick C (world st))) = inl e /\
        trace st' = trace st ++ AClear :: observe cb qs) \/
     (exists trs tail,
        trace st' =
          trace st ++ (AClear :: observe cb qs) ++ List.concat trs ++ tail /\
        run_end C cb (Z.to_nat (max_iterations (self st))) r trs tail)).
Proof.
  intros H. unfold completion in H.
  unfold bind at 1 in H. unfold update_self at 1 in H.
  unfold bind at 1 in H. rewrite setup_context_run in H. cbv zeta in H.
  cbn [self world trace event_callback set_event_callback base_url
       recursive_model logger] in H.
  exists (mkEvent "query_start" (clock C (world st))
            [("query", match q with VNone => DEFAULT_QUERY C | _ => q end)]
            None).
  split; [reflexivity|].
  destruct (REPLEnv C (base_url (self st)) context (recursive_model (self st))
              (tick C (world st))) as [[e|[]] w2] eqn:Hrepl;
    cbn [fst snd] in H.
  { left. injection H as <- <-. exists e. repeat split. }
  right.
  unfold bind at 1 in H. unfold update_self at 1 in H.
  unfold bind at 1 in H. unfold read at 1 in H.
  cbn [self world trace max_iterations set_messages set_logger set_query
       set_event_callback] in H.
  unfold bind at 1 in H.
  match type of H with
  | context [for_iteration C q ?n ?i ?b ?s] =>
      destruct (for_iteration C q n i b s) as [lr st1] eqn:Hloop;
      destruct (for_iteration_trace q n i b s st1 lr Hloop)
        as [trs [Htr [Hshape [Hcb Hbound]]]]
  end.
  cbn [self world trace event_callback set_messages set_logger set_query
       set_event_callback] in Htr, Hshape, Hcb.
  destruct lr as [e|[a|b]].
  - injection H as <- <-. exists trs, []. rewrite app_nil_r, Htr, <- app_assoc.
    split; [reflexivity|]. now apply end_loop_fault.
  - unfold return_completion, bind, read, ret in H. injection H as <- <-.
    exists trs, []. rewrite app_nil_r, Htr, <- app_assoc.
    split; [reflexivity|]. now apply end_returned.
  - specialize (Hbound b eq_refl).
    destruct (Z.to_nat (max_iterations (self st))) as [|k] eqn:Hn.
    + subst b. unfold bind at 1 in H. unfold raise in H.
      injection H as <- <-. destruct Hshape as [Hlen _].
      destruct trs; [|discriminate]. exists [], []. simpl.
      rewrite Htr. simpl. rewrite !app_nil_r.
      split; [reflexivity|]. now apply end_unbound.
    + subst b. unfold bind at 1 in H. unfold ret at 1 in H.
      unfold bind at 1 in H. unfold read at 1 in H.
      unfold bind at 1 in H. unfold update_self at 1 in H.
      unfold bind at 1 in H. unfold read at 1 in H.
      cbn [self world trace messages set_messages] in H.
      unfold bind at 1 in H. unfold call_llm in H.
      unfold bind at 1 in H. unfold emit at 1 in H.
      unfold external at 1 in H. cbn [self world trace] in H.
      match type of H with
      | context [llm_completion C ?m ?w] =>
          destruct (llm_completion C m w) as [[e|s] w3] eqn:Hllm
      end.
      * injection H as <- <-. eexists trs, [AModel _].
        cbn [trace]. rewrite Htr, <- !app_assoc.
        split; [reflexivity|].
        eapply end_forced_fault with (w := world st1);
          [lia | exact Hshape | exact (f_equal fst Hllm)].
      * rewrite (log_stream_bind _ _ _ (mkEvent "final_answer" (clock C w3)
                   [("answer", VStr s)] None)) in H by reflexivity.
        unfold return_completion, bind, read, ret in H.
        injection H as <- <-.
        cbn [self world trace event_callback set_messages set_logger].
        rewrite Hcb.
        eexists trs, ([AModel _] ++ observe cb _).
        rewrite Htr, <- !app_assoc.
        split; [reflexivity|].
        eapply end_forced with (w := world st1);
          [lia | exact Hshape | exact (f_equal fst Hllm) | reflexivity
          | reflexivity].
Qed.

(** *** What the shape of a run gives *)

Lemma dispatched_model_calls (cb : bool) (response : string) (mid : list Action) :
  dispatched cb response mid -> model_calls mid = 0%nat.
Proof.
  intros [->|[ces [-> _]]]; [reflexivity|].
  change (ADispatch response :: flat_map (observe cb) ces)
    with ([ADispatch response] ++ flat_map (observe cb) ces).
  now rewrite model_calls_app, model_calls_observed.
Qed.

Lemma dispatched_appended (cb : bool) (response : string) (mid : list Action) :
  dispatched cb response mid ->
  Forall (fun e => type e = "code_execution") (appended mid) /\
  callbacks mid = if cb then appended mid else [].
Proof.
  intros [->|[ces [-> Hces]]]; [now destruct cb|].
  change (ADispatch response :: flat_map (observe cb) ces)
    with ([ADispatch response] ++ flat_map (observe cb) ces).
  rewrite appended_app, callbacks_app, appended_observed, callbacks_observed.
  split; [exact Hces|reflexivity].
Qed.

Lemma dispatched_synchronous (response : string) (mid : list Action) :
  dispatched true response mid -> synchronous mid.
Proof.
  intros [->|[ces [-> _]]]; [constructor|].
  apply sync_other; [exact I | apply synchronous_observed].
Qed.

(** Every iteration calls the Model exactly once. *)
Lemma iteration_model_calls (cb : bool) (r : Result (option string))
    (tr : list Action) :
  iteration_trace C cb r tr -> model_calls tr = 1%nat.
Proof.
  intros H; destruct H as [msgs w e He
                          |msgs ms ex w mr response e Hmr He
                          |msgs w mr response mid chk e Hmr Hmid [Hchk _] He
                          |msgs w mr response mid chk o Hmr Hmid [Hchk _] Ho Ht
                          |msgs w mr fa response mid chk a Hmr Hmid [Hchk _] Ho Ht Hfa Hda];
    rewrite ?model_calls_app, ?model_calls_observe,
      ?(dispatched_model_calls _ _ _ Hmid), ?(model_calls_log_actions _ Hchk);
    reflexivity.
Qed.

(** Only an iteration that returns hands a [final_answer] Event to the
    callback. *)
Lemma iteration_callbacks (cb : bool) (r : Result (option string))
    (tr : list Action) :
  iteration_trace C cb r tr ->
  (forall a, r <> inr (Some a)) ->
  Forall (fun e => type e <> "final_answer") (callbacks tr).
Proof.
  intros H Hr; destruct H as [msgs w e He
                             |msgs ms ex w mr response e Hmr He
                             |msgs w mr response mid chk e Hmr Hmid [Hchk _] He
                             |msgs w mr response mid chk o Hmr Hmid [Hchk _] Ho Ht
                             |msgs w mr fa response mid chk a Hmr Hmid [Hchk _] Ho Ht Hfa Hda];
    try (exfalso; now apply (Hr a));
    rewrite ?callbacks_app, ?callbacks_observe, ?(callbacks_log_actions _ Hchk);
    simpl; rewrite ?app_nil_r;
    try (destruct (dispatched_appended _ _ _ Hmid) as [Hces Hcbs]; rewrite Hcbs);
    destruct cb; simpl; repeat constructor;
    try (rewrite Hmr; discriminate);
    try (apply Forall_app; split; [|constructor]);
    try (eapply Forall_impl; [|exact Hces]; intros x Hx; rewrite Hx; discriminate).
Qed.

(** With a registered callback and a check that logs nothing, an
    iteration's appends are each followed at once by the callback. *)
Lemma iteration_synchronous (r : Result (option string)) (tr : list Action) :
  silent_check C ->
  iteration_trace C true r tr -> synchronous tr.
Proof.
  intros Hsilent H;
    destruct H as [msgs w e He
                  |msgs ms ex w mr response e Hmr He
                  |msgs w mr response mid chk e Hmr Hmid [_ [Hchk _]] He
                  |msgs w mr response mid chk o Hmr Hmid [_ [Hchk _]] Ho Ht
                  |msgs w mr fa response mid chk a Hmr Hmid [_ [Hchk _]] Ho Ht Hfa Hda];
    try rewrite (Hchk (Hsilent _ _));
    repeat (apply synchronous_app || apply synchronous_observe
            || (eapply dispatched_synchronous; eassumption)
            || (apply sync_other; [exact I|]) || apply sync_nil).
Qed.

(** An iteration whose check does not match and logs only what it could
    not resolve appends exactly one [model_response] Event and no
    [final_answer] Event. *)
Lemma iteration_counts (cb : bool) (tr : list Action) :
  never_matches C ->
  iteration_trace C cb (inr None) tr ->
  count_type "model_response" (appended tr) = 1%nat /\
  count_type "final_answer" (appended tr) = 0%nat.
Proof.
  intros Hnever H. inversion H as [| | |msgs w mr response mid chk o Hmr Hmid Hchk Ho Ht|];
    subst.
  destruct Hchk as [_ [_ Hquiet]].
  destruct (Hquiet (proj2 (Hnever response w))) as [_ Htypes].
  destruct (dispatched_appended _ _ _ Hmid) as [Hces _].
  rewrite !appended_app, appended_observe, !count_type_app. simpl.
  rewrite (count_type_none "model_response" (appended mid)),
    (count_type_none "model_response" (appended chk)),
    (count_type_none "final_answer" (appended mid)),
    (count_type_none "final_answer" (appended chk)).
  - unfold count_type, is_type. simpl. rewrite Hmr. split; reflexivity.
  - eapply Forall_impl; [|exact Htypes]. intros x [Hx|Hx]; rewrite Hx; discriminate.
  - eapply Forall_impl; [|exact Hces]. intros x Hx; rewrite Hx; discriminate.
  - eapply Forall_impl; [|exact Htypes]. intros x [Hx|Hx]; rewrite Hx; discriminate.
  - eapply Forall_impl; [|exact Hces]. intros x Hx; rewrite Hx; discriminate.
Qed.

Lemma loop_trace_iterations (cb : bool) (n : nat) (r : Result LoopExit)
    (trs : list (list Action)) :
  loop_trace C cb n r trs ->
  Forall (fun tr => exists r', iteration_trace C cb r' tr) trs.
Proof.
  assert (Hnone : forall l, Forall (iteration_trace C cb (inr None)) l ->
                            Forall (fun tr => exists r', iteration_trace C cb r' tr) l).
  { intros l Hl. eapply Forall_impl; [|exact Hl]. intros tr Htr. eauto. }
  destruct r as [e|[a|b]]; simpl.
  - intros [init [final [-> [_ [Hinit Hfinal]]]]].
    apply Forall_app. split; [now apply Hnone|]. constructor; eauto.
  - intros [init [final [-> [_ [Hinit Hfinal]]]]].
    apply Forall_app. split; [now apply Hnone|]. constructor; eauto.
  - intros [_ Hall]. now apply Hnone.
Qed.

Lemma continuing_iterations (cb : bool) (trs : list (list Action)) :
  never_matches C ->
  Forall (iteration_trace C cb (inr None)) trs ->
  model_calls (List.concat trs) = List.length trs /\
  count_type "model_response" (appended (List.concat trs)) = List.length trs /\
  count_type "final_answer" (appended (List.concat trs)) = 0%nat.
Proof.
  intros Hnever. induction 1 as [|tr r Htr _ [IH1 [IH2 IH3]]]; simpl.
  - repeat split.
  - destruct (iteration_counts cb tr Hnever Htr) as [Hmr Hfa].
    rewrite model_calls_app, appended_app, !count_type_app.
    rewrite (iteration_model_calls _ _ _ Htr), IH1, IH2, IH3, Hmr, Hfa.
    repeat split.
Qed.

Lemma callbacks_concat (trs : list (list Action)) :
  Forall (fun tr => Forall (fun e => type e <> "final_answer") (callbacks tr)) trs ->
  Forall (fun e => type e <> "final_answer") (callbacks (List.concat trs)).
Proof.
  induction 1 as [|tr r Htr _ IH]; simpl; [constructor|].
  rewrite callbacks_app. apply Forall_app. now split.
Qed.

(** X1. When no collaborator raises and the final-answer check never
    matches, a run with [max_iterations = N >= 1] returns,
    the loop appends exactly [N] [model_response] Events, one forced call
    follows, the Model is called exactly [N + 1] times, and exactly one
    [final_answer] Event is appended. *)
Lemma no_match_runs_every_iteration (context q : Value) (cb : bool) (st : Run C) :
  no_faults C ->
  never_matches C ->
  0 < max_iterations (self st) ->
  exists result st' tr,
    completion C context q cb st = (inr result, st') /\
    trace st' = trace st ++ tr /\
    model_calls tr = S (Z.to_nat (max_iterations (self st))) /\
    count_type "model_response" (appended tr) =
      Z.to_nat (max_iterations (self st)) /\
    count_type "final_answer" (appended tr) = 1%nat.
Proof.
  intros [_ [Hrepl [Hllm [Hproc Hcheck]]]] Hnever Hpos.
  assert (Hiter : forall e tr, ~ iteration_trace C cb (inl e) tr).
  { intros e tr H. inversion H as [msgs w e' He
                                  |msgs ms ex w mr response e' Hmr He
                                  |msgs w mr response mid chk e' Hmr Hmid Hchk He
                                  | |]; subst.
    - destruct (Hllm msgs w) as [s Hs]. congruence.
    - destruct (Hproc response ms ex w) as [out Hout]. congruence.
    - destruct (Hcheck response w) as [o Ho]. congruence. }
  assert (Hret : forall a tr, ~ iteration_trace C cb (inr (Some a)) tr).
  { intros a tr H. inversion H as [| | | |msgs w mr fa response mid chk a' Hmr Hmid Hchk Ho Ht Hfa Hda];
      subst.
    pose proof (proj1 (Hnever response w) _ Ho). congruence. }
  destruct (completion C context q cb st) as [r st'] eqn:Hrun.
  destruct (completion_trace context q cb st st' r Hrun) as [qs [Hqs Hcases]].
  destruct Hcases as [[e [_ [He _]]]|[trs [tail [Htr Hend]]]].
  { rewrite Hrepl in He. discriminate. }
  inversion Hend as [e trs' Hloop
                    |a evs trs' Hloop
                    |Hn
                    |b trs' msgs w e Hn Hloop He
                    |b trs' msgs w s fa evs Hn Hloop Hs Hfa Hda]; subst.
  - destruct Hloop as [init [final [_ [_ [_ Hfinal]]]]].
    exfalso. exact (Hiter _ _ Hfinal).
  - destruct Hloop as [init [final [_ [_ [_ Hfinal]]]]].
    exfalso. exact (Hret _ _ Hfinal).
  - lia.
  - destruct (Hllm msgs w) as [s Hs]. congruence.
  - destruct Hloop as [Hlen Hall].
    destruct (continuing_iterations cb trs Hnever Hall) as [Hcalls [Hmr Hnofa]].
    eexists; eexists; eexists. split; [reflexivity|]. split; [exact Htr|].
    change (AClear :: observe cb qs) with ([AClear] ++ observe cb qs).
    rewrite !model_calls_app, !appended_app, !count_type_app,
      !model_calls_observe, !appended_observe, Hcalls, Hmr, Hnofa, Hlen.
    unfold count_type, is_type. simpl. rewrite Hqs, Hfa. simpl.
    repeat split; lia.
Qed.

(** X2. When the final-answer check makes no call on the logger, every
    append of a run with a registered callback is
    followed at once by the callback with the Event just appended, for
    every outcome of the run. *)
Lemma loop_appends_are_forwarded_at_once
    (context q : Value) (st st' : Run C) (r : Result Completion) :
  silent_check C ->
  completion C context q true st = (r, st') ->
  exists tr, trace st' = trace st ++ tr /\ synchronous tr.
Proof.
  intros Hsilent Hrun.
  destruct (completion_trace context q true st st' r Hrun) as [qs [Hqs Hcases]].
  destruct Hcases as [[e [_ [_ Htr]]]|[trs [tail [Htr Hend]]]].
  { eexists. split; [exact Htr|].
    apply sync_other; [exact I | apply synchronous_observe]. }
  eexists. split; [exact Htr|].
  assert (Hloop : forall n lr, loop_trace C true n lr trs ->
                               synchronous (List.concat trs)).
  { intros n lr H. apply synchronous_concat.
    eapply Forall_impl; [|exact (loop_trace_iterations _ _ _ _ H)].
    intros tr [r' Hr']. exact (iteration_synchronous r' tr Hsilent Hr'). }
  apply synchronous_app;
    [apply sync_other; [exact I | apply synchronous_observe]|].
  inversion Hend as [e trs' Hl
                    |a evs trs' Hl
                    |Hn
                    |b trs' msgs w e Hn Hl He
                    |b trs' msgs w s fa evs Hn Hl Hs Hfa Hda]; subst;
    try (apply synchronous_app; [eapply Hloop; eassumption|]);
    repeat (apply sync_nil || (apply sync_other; [exact I|])
            || apply synchronous_observe
            || apply (synchronous_app [AModel _])).
Qed.

(** A run that a fault ends hands no [final_answer] Event to the
    callback. *)
Lemma faulted_run_has_no_final_answer
    (context q : Value) (cb : bool) (st st' : Run C) (e : Exn) :
  completion C context q cb st = (inl e, st') ->
  exists tr,
    trace st' = trace st ++ tr /\
    Forall (fun ev => type ev <> "final_answer") (callbacks tr).
Proof.
  intros Hrun.
  destruct (completion_trace context q cb st st' _ Hrun) as [qs [Hqs Hcases]].
  assert (Hhead : Forall (fun ev => type ev <> "final_answer")
                    (callbacks (AClear :: observe cb qs))).
  { change (AClear :: observe cb qs) with ([AClear] ++ observe cb qs).
    rewrite callbacks_app, callbacks_observe. destruct cb; simpl;
      repeat constructor. rewrite Hqs. discriminate. }
  destruct Hcases as [[e' [_ [_ Htr]]]|[trs [tail [Htr Hend]]]].
  { eexists. split; [exact Htr | exact Hhead]. }
  eexists. split; [exact Htr|].
  assert (Hnone : forall l, Forall (iteration_trace C cb (inr None)) l ->
                            Forall (fun ev => type ev <> "final_answer")
                              (callbacks (List.concat l))).
  { intros l Hl. apply callbacks_concat.
    eapply Forall_impl; [|exact Hl]. intros tr Htr'.
    apply (iteration_callbacks _ _ _ Htr'). discriminate. }
  rewrite !callbacks_app. apply Forall_app. split; [exact Hhead|].
  apply Forall_app.
  inversion Hend as [e' trs' Hl
                    |
                    |Hn
                    |b trs' msgs w e' Hn Hl He
                    |]; subst.
  - destruct Hl as [init [final [-> [_ [Hinit Hfinal]]]]].
    split; [|constructor].
    rewrite concat_app, callbacks_app. apply Forall_app. split.
    + now apply Hnone.
    + simpl. rewrite app_nil_r.
      apply (iteration_callbacks _ _ _ Hfinal). discriminate.
  - split; constructor.
  - destruct Hl as [_ Hall]. split; [now apply Hnone|constructor].
Qed.

(** C2, at the failing input. With [max_iterations = 0] (and a REPL that
    starts), [completion] does skip the loop body, but it then raises
    [UnboundLocalError] for the loop variable [iteration]: the forced
    final-answer Model call is never made (the run makes no Model call at
    all), no [final_answer] Event is logged and no answer is returned. *)
Theorem zero_iterations_raises_before_forced_call
    (context q : Value) (cb : bool) (st : Run C)
    (Hzero : max_iterations (self st) = 0)
    (Hrepl : fst (REPLEnv C (base_url (self st)) context
                    (recursive_model (self st)) (tick C (world st))) = inr tt) :
  exists st',
    completion C context q cb st = (inl (UnboundLocalError "iteration"), st') /\
    model_calls (trace st') = model_calls (trace st) /\
    count_type "final_answer" (appended (trace st')) =
    count_type "final_answer" (appended (trace st)).
Proof.
  destruct (completion_without_iterations context q cb st) as
    [e [st' [qs [Hrun [Htr [Hty He]]]]]]; [lia|].
  rewrite Hrepl in He. subst e. exists st'. split; [exact Hrun|].
  rewrite Htr. change (AClear :: observe cb qs) with ([AClear] ++ observe cb qs).
  rewrite !model_calls_app, !appended_app, model_calls_observe, appended_observe.
  rewrite count_type_app. simpl. unfold count_type at 2. simpl.
  unfold is_type. rewrite Hty. simpl. lia.
Qed.
End LoopFacts.

Lemma zero_iterations_raises_before_forced_call_witness :
  exists st',
    scripted.run scripted.plain 0%nat 0 (VStr "Paris is the capital of France.")
      (VStr "What is the capital of France?") true
    = (inl (UnboundLocalError "iteration"), st') /\
    model_calls (trace st') = 0%nat.
Proof.
  destruct (zero_iterations_raises_before_forced_call scripted.plain
              (VStr "Paris is the capital of France.")
              (VStr "What is the capital of France?") true
              (snd (RLM_WEB_init scripted.plain "https://api.openai.com/v1" None
                      (VStr "gpt-4o-mini") (VStr "gpt-4o-mini") 0 0 0%nat))
              eq_refl eq_refl) as [st' [Hrun [Hcalls _]]].
  exists st'. split; [exact Hrun | exact Hcalls].
Defined.


(** ** The streaming bridge *)

Section BridgeFacts.
Variable C : Collaborators.
Variable env : app.Closure.
Variable w : World C.

Let prog := app.run_rlm C env w.

Lemma pushed_puts (evs : list Event) (tail : list app.WorkerOp) :
  app.pushed (map app.put_event evs ++ tail) = evs ++ app.pushed tail.
Proof.
  induction evs as [|e r IH]; simpl; [reflexivity|]. now rewrite IH.
Qed.

Lemma final_flags_puts (evs : list Event) (tail : list app.WorkerOp) :
  forall fl,
    fold_left (fun fl op =>
                 match op with
                 | app.SetFinalAnswer a => (fst fl, Some a)
                 | app.SetErrorOccurred e => (Some e, snd fl)
                 | app.Put _ => fl
                 end) (map app.put_event evs ++ tail) fl =
    fold_left (fun fl op =>
                 match op with
                 | app.SetFinalAnswer a => (fst fl, Some a)
                 | app.SetErrorOccurred e => (Some e, snd fl)
                 | app.Put _ => fl
                 end) tail fl.
Proof.
  induction evs as [|e r IH]; intros fl; simpl; [reflexivity|]. apply IH.
Qed.

(** The worker's program: puts of Events, one assignment, the sentinel. *)
Lemma run_rlm_shape :
  exists evs fin,
    prog = map app.put_event evs ++ [fin; app.Put None] /\
    app.is_assignment fin = true /\
    app.pushed prog = evs /\
    app.final_flags prog = app.flags_after fin.
Proof.
  unfold prog, app.run_rlm.
  destruct (app.run_rlm_try C env w) as [r st].
  exists (callbacks (trace st)).
  destruct r as [e|result]; eexists; split; try reflexivity;
    (split; [reflexivity|]); split.
  - rewrite pushed_puts. simpl. apply app_nil_r.
  - unfold app.final_flags. now rewrite final_flags_puts.
  - rewrite pushed_puts. simpl. apply app_nil_r.
  - unfold app.final_flags. now rewrite final_flags_puts.
Qed.

Section Invariant.
Variable evs : list Event.
Variable fin : app.WorkerOp.
Hypothesis Hprog : prog = map app.put_event evs ++ [fin; app.Put None].
Hypothesis Hfin : app.is_assignment fin = true.

Lemma worker_step_inv (s : app.Sys) :
  app.bridge_inv C evs fin s -> app.bridge_inv C evs fin (app.worker_step s).
Proof.
  intros H. destruct H as [|ys qs rest s He Hpc Hth Hq Hy Hf
                            |ys qs s He Hpc Hth Hq Hy Hf
                            |ys qs s He Hpc Hth Hq Hy Hf
                            |s Hpc Hth Hq Hy Hf
                            |s Hpc Hth Hy];
    try (destruct s as [p q fa eo th yd]; simpl in *; subst);
    unfold app.worker_step; simpl.
  - constructor.
  - destruct rest as [|e rest]; simpl.
    + unfold app.flags in Hf; simpl in Hf. injection Hf as -> ->.
      destruct fin; try discriminate; simpl.
      * eapply app.inv_assigned with (ys := ys) (qs := qs); simpl;
          try reflexivity. now rewrite app_nil_r.
      * eapply app.inv_assigned with (ys := ys) (qs := qs); simpl;
          try reflexivity. now rewrite app_nil_r.
    + eapply app.inv_running with (ys := ys) (qs := qs ++ [e]) (rest := rest);
        simpl; try reflexivity; try assumption.
      * now rewrite <- !app_assoc.
      * now rewrite map_app.
  - eapply app.inv_signalled with (ys := ys) (qs := qs); simpl;
      try reflexivity; assumption.
  - eapply app.inv_signalled with (ys := ys) (qs := qs); simpl;
      try reflexivity; assumption.
  - apply app.inv_joining; simpl; try reflexivity; assumption.
  - apply app.inv_finished; simpl; try reflexivity; assumption.
Qed.

Lemma generate_step_inv (s : app.Sys) :
  app.bridge_inv C evs fin s ->
  app.bridge_inv C evs fin (app.generate_step C env w s).
Proof.
  intros H. destruct H as [|ys qs rest s He Hpc Hth Hq Hy Hf
                            |ys qs s He Hpc Hth Hq Hy Hf
                            |ys qs s He Hpc Hth Hq Hy Hf
                            |s Hpc Hth Hq Hy Hf
                            |s Hpc Hth Hy];
    try (destruct s as [p q fa eo th yd]; simpl in *; subst);
    unfold app.generate_step; simpl.
  - fold prog. rewrite Hprog.
    eapply app.inv_running with (ys := []) (qs := []) (rest := evs);
      simpl; reflexivity.
  - destruct qs as [|e qs]; simpl.
    + eapply app.inv_running with (ys := ys) (qs := []) (rest := rest);
        simpl; try reflexivity; assumption.
    + eapply app.inv_running with (ys := ys ++ [e]) (qs := qs) (rest := rest);
        simpl; try reflexivity; try assumption.
      * now rewrite <- !app_assoc.
      * now rewrite map_app.
  - destruct qs as [|e qs]; simpl.
    + eapply app.inv_assigned with (ys := ys) (qs := []);
        simpl; try reflexivity; assumption.
    + eapply app.inv_assigned with (ys := ys ++ [e]) (qs := qs);
        simpl; try reflexivity; try assumption.
      * now rewrite <- !app_assoc.
      * now rewrite map_app.
  - destruct qs as [|e qs]; simpl.
    + apply app.inv_joining; simpl; try reflexivity; try assumption.
      now rewrite app_nil_r.
    + eapply app.inv_signalled with (ys := ys ++ [e]) (qs := qs);
        simpl; try reflexivity; try assumption.
      * now rewrite <- !app_assoc.
      * now rewrite map_app.
  - apply app.inv_finished; simpl; try reflexivity.
    rewrite <- Hf. reflexivity.
  - apply app.inv_finished; simpl; try reflexivity; assumption.
Qed.

Lemma exec_inv (schedule : list app.Thread) :
  forall s,
    app.bridge_inv C evs fin s ->
    app.bridge_inv C evs fin (app.exec C env w schedule s).
Proof.
  induction schedule as [|t r IH]; intros s H; simpl; [exact H|].
  apply IH. destruct t; simpl.
  - now apply worker_step_inv.
  - now apply generate_step_inv.
Qed.

Lemma bridge_progress (s : app.Sys) :
  app.bridge_inv C evs fin s ->
  app.pc s <> app.Finished ->
  exists t,
    (app.distance prog (app.step C env w t s) < app.distance prog s)%nat.
Proof.
  intros H Hpc.
  destruct H as [|ys qs rest s He Hp Hth Hq Hy Hf
                 |ys qs s He Hp Hth Hq Hy Hf
                 |ys qs s He Hp Hth Hq Hy Hf
                 |s Hp Hth Hq Hy Hf
                 |s Hp Hth Hy];
    try (destruct s as [p q fa eo th yd]; simpl in *; subst).
  - exists app.Consumer. unfold app.distance, prog; simpl. lia.
  - exists app.Worker. unfold app.distance, app.worker_step; simpl.
    destruct rest as [|e rest]; simpl.
    + destruct fin; try discriminate; simpl; lia.
    + rewrite !length_app. simpl. lia.
  - exists app.Worker. unfold app.distance, app.worker_step; simpl.
    rewrite length_app. simpl. lia.
  - exists app.Consumer. unfold app.distance, app.generate_step; simpl.
    destruct qs as [|e qs]; simpl; rewrite ?length_app; simpl; lia.
  - exists app.Consumer. unfold app.distance, app.generate_step; simpl. lia.
  - congruence.
Qed.

Lemma step_inv (t : app.Thread) (s : app.Sys) :
  app.bridge_inv C evs fin s ->
  app.bridge_inv C evs fin (app.step C env w t s).
Proof.
  destruct t; simpl; [apply worker_step_inv | apply generate_step_inv].
Qed.

Lemma bridge_completes (n : nat) :
  forall s,
    (app.distance prog s <= n)%nat ->
    app.bridge_inv C evs fin s ->
    exists more, app.pc (app.exec C env w more s) = app.Finished.
Proof.
  induction n as [|n IH]; intros s Hd Hinv.
  - exists []. simpl. unfold app.distance in Hd.
    destruct (app.pc s); try lia. reflexivity.
  - destruct (app.pc s) eqn:Hp;
      try (destruct (bridge_progress s Hinv) as [t Ht]; [congruence|];
           destruct (IH (app.step C env w t s)) as [more Hm];
           [lia | now apply step_inv | exists (t :: more); exact Hm]).
    exists []. exact Hp.
Qed.

Lemma finished_is_final (s : app.Sys) (more : list app.Thread) :
  app.bridge_inv C evs fin s ->
  app.pc s = app.Finished ->
  app.exec C env w more s = s.
Proof.
  intros Hinv Hp.
  assert (Hth : app.rlm_thread s = []).
  { inversion Hinv; subst; simpl in *; congruence. }
  induction more as [|t r IH]; simpl; [reflexivity|].
  replace (app.step C env w t s) with s; [exact IH|].
  destruct t; simpl.
  - unfold app.worker_step. now rewrite Hth.
  - unfold app.generate_step. now rewrite Hp.
Qed.

Lemma bridge_inv_yielded (s : app.Sys) :
  app.bridge_inv C evs fin s ->
  (app.pc s = app.Finished ->
     app.yielded s =
       map (app.frame_of C) evs ++
       [app.sse C (app.terminal_frame (fst (app.flags_after fin))
                     (snd (app.flags_after fin)))]) /\
  (app.pc s <> app.Finished ->
     exists rest, map (app.frame_of C) evs = app.yielded s ++ rest).
Proof.
  intros Hinv.
  destruct Hinv as [|ys qs rest s He Hpc Hth Hq Hy Hf
                    |ys qs s He Hpc Hth Hq Hy Hf
                    |ys qs s He Hpc Hth Hq Hy Hf
                    |s Hpc Hth Hq Hy Hf
                    |s Hpc Hth Hy];
    (split; [intros Hp; simpl in *; try congruence | intros Hp]).
  - exists (map (app.frame_of C) evs). reflexivity.
  - exists (map (app.frame_of C) (qs ++ rest)).
    now rewrite Hy, He, map_app.
  - exists (map (app.frame_of C) qs). now rewrite Hy, He, map_app.
  - exists (map (app.frame_of C) qs). now rewrite Hy, He, map_app.
  - exists []. now rewrite Hy, app_nil_r.
  - congruence.
Qed.
End Invariant.

(** The stream of a finished generator. *)
Lemma finished_stream (schedule : list app.Thread) :
  let s := app.exec C env w schedule (app.generate env) in
  app.pc s = app.Finished ->
  app.yielded s = app.expected_stream C prog.
Proof.
  intros s Hp.
  destruct run_rlm_shape as [evs [fin [Hprog [Hfin [Hpushed Hflags]]]]].
  assert (Hinv : app.bridge_inv C evs fin s).
  { apply exec_inv; [exact Hprog | exact Hfin | constructor]. }
  unfold app.expected_stream. rewrite Hpushed, Hflags.
  now apply (bridge_inv_yielded evs fin s Hinv).
Qed.

(** C1. Under every interleaving of the worker and the generator: once
    the generator is exhausted it has yielded exactly one frame for each
    Event the worker put on the queue, in that order, followed by exactly
    one terminal frame, and nothing is ever yielded after it; before
    that it has yielded only Event frames, a prefix of those the worker
    puts, and no terminal frame; and from every state reached the run
    can still be scheduled to the end. *)
Theorem terminal_frame_once_after_all_events (schedule : list app.Thread) :
  let s := app.exec C env w schedule (app.generate env) in
  (app.pc s = app.Finished ->
     app.yielded s = app.expected_stream C prog /\
     forall more, app.exec C env w more s = s) /\
  (app.pc s <> app.Finished ->
     exists rest,
       map (app.frame_of C) (app.pushed prog) = app.yielded s ++ rest) /\
  (exists more,
     app.pc (app.exec C env w (schedule ++ more) (app.generate env))
       = app.Finished) /\
  List.length (app.expected_stream C prog) = S (List.length (app.pushed prog)).
Proof.
  intros s.
  destruct run_rlm_shape as [evs [fin [Hprog [Hfin [Hpushed Hflags]]]]].
  assert (Hinv : app.bridge_inv C evs fin s).
  { apply exec_inv; [exact Hprog | exact Hfin | constructor]. }
  destruct (bridge_inv_yielded evs fin s Hinv) as [Hdone Hbefore].
  split; [|split; [|split]].
  - intros Hp. split.
    + unfold app.expected_stream. rewrite Hpushed, Hflags. now apply Hdone.
    + intros more. now apply (finished_is_final evs fin).
  - intros Hp. rewrite Hpushed. now apply Hbefore.
  - destruct (bridge_completes evs fin Hprog Hfin _ s (le_n _) Hinv)
      as [more Hm].
    exists more. unfold app.exec in *. now rewrite fold_left_app.
  - unfold app.expected_stream. rewrite length_app, length_map. simpl. lia.
Qed.

(** X3. When the worker's run ends in an exception whose [str] is not
    empty, then under every interleaving the
    finished stream is the frames of the Events the run handed to the
    callback, none of them a [final_answer], followed by the one [error]
    frame carrying the description. *)
Lemma fault_with_description_ends_in_error_frame
    (e : Exn) (schedule : list app.Thread) :
  fst (app.run_rlm_try C env w) = inl e ->
  str_exn e <> "" ->
  let s := app.exec C env w schedule (app.generate env) in
  let delivered := callbacks (trace (snd (app.run_rlm_try C env w))) in
  app.pc s = app.Finished ->
  app.yielded s =
    map (app.frame_of C) delivered ++ [app.sse C (app.error_frame (str_exn e))] /\
  Forall (fun ev => type ev <> "final_answer") delivered.
Proof.
  intros Hfault Hdescr s delivered Hp.
  pose proof (finished_stream schedule Hp) as Hy. fold s in Hy. split.
  - rewrite Hy. unfold app.expected_stream, prog, app.run_rlm, delivered.
    destruct (app.run_rlm_try C env w) as [r st]. simpl in Hfault. subst r.
    rewrite pushed_puts. unfold app.final_flags. rewrite final_flags_puts.
    simpl. rewrite app_nil_r. unfold app.terminal_frame. simpl.
    destruct (String.eqb_spec (str_exn e) ""); [contradiction|reflexivity].
  - unfold delivered. unfold app.run_rlm_try in *.
    unfold RLM_WEB_init, external in *. cbn [world self trace] in *.
    destruct (OpenAIClient C _ _ _ w) as [[e0|[]] w0].
    + simpl. constructor.
    + destruct (completion C (app.context env) (app.query_text env) true _)
        as [r st'] eqn:Hrun.
      simpl in Hfault. subst r.
      destruct (faulted_run_has_no_final_answer C _ _ _ _ _ _ Hrun)
        as [tr [Htr Hno]].
      simpl in *. now rewrite Htr.
Qed.
End BridgeFacts.

(** ** The entry point *)

Section EntryPoint.
Variable C : Collaborators.

End EntryPoint.



(** ** Concrete runs *)

(** C8 on a concrete run: the theorem's hypotheses hold for a model whose
    reply has a code block and the marker; the executor adds one record,
    and its [code_execution] Event is appended between the dispatch and
    the check. *)
Lemma code_runs_before_final_answer_check_witness :
  let st := scripted.fresh scripted.coder 0%nat 5 in
  let st' := snd (loop_body scripted.coder (VStr "q") 0 st) in
  exists ce fa front chk pre,
    trace st' =
      front ++ [ADispatch "```print(1)"; AAppend ce; ACheck "```print(1)"] ++
      chk ++ [AAppend fa] /\
    type ce = "code_execution" /\
    data ce = execution_data (mkExecution "```print(1)" "out" "" None) /\
    events (logger (self st')) = pre ++ [fa] /\
    type fa = "final_answer".
Proof.
  intros st st'.
  assert (Hreply : fst (llm_completion scripted.coder
                          (messages (self st) ++
                           [next_action_prompt scripted.coder (VStr "q") 0 false])
                          (world st)) = inr "```print(1)")
    by (vm_compute; reflexivity).
  assert (Hcode : find_code_blocks scripted.coder "```print(1)"
                  = Some ["```print(1)"])
    by (vm_compute; reflexivity).
  assert (Hret : loop_body scripted.coder (VStr "q") 0 st
                 = (inr (Some "Paris"), st'))
    by (vm_compute; reflexivity).
  assert (Hcb : event_callback (self st) = false) by reflexivity.
  assert (Hex : executions (self st) = []) by reflexivity.
  assert (Hms : messages (self st) = []) by reflexivity.
  clearbody st st'.
  destruct (code_runs_before_final_answer_check scripted.coder (VStr "q") 0
              st st' "```print(1)" "Paris" ["```print(1)"] Hreply Hcode Hret)
    as [out [mr [ces [chk [fa [pre [Hout [_ [Htr [_ [Hty [Hda [_ [Hfa [_ Hev]]]]]]]]]]]]]]].
  rewrite Hcb in Htr. rewrite Hex in Hout, Hty, Hda. rewrite Hms in Hout.
  cbn in Hout. injection Hout as <-. cbn in Hty, Hda.
  destruct ces as [|ce [|ce' ces]]; try discriminate.
  injection Hty as Hty. injection Hda as Hda.
  exists ce, fa, (trace st ++ [AModel (messages (self st) ++
                    [next_action_prompt scripted.coder (VStr "q") 0 false])] ++
                  observe false mr), chk, pre.
  split; [|split; [exact Hty|split; [exact Hda|split; [exact Hev|exact Hfa]]]].
  rewrite Htr. cbn [flat_map observe app]. rewrite <- !app_assoc. reflexivity.
Defined.

(** *** The code at the inputs where it leaves the specification *)

(** C3, at the failing input [max_iterations = 0] with a check that never
    matches: the loop produces 0 [model_response] Events, as claimed, but
    the forced final-answer call is not made: the run makes 0 Model calls
    in total instead of 0 + 1, and ends in [UnboundLocalError]. *)
Theorem zero_iterations_make_no_model_call :
  let r := scripted.run scripted.plain 0%nat 0
             (VStr "Paris is the capital of France.")
             (VStr "What is the capital of France?") true in
  fst r = inl (UnboundLocalError "iteration") /\
  model_calls (trace (snd r)) = 0%nat /\
  count_type "model_response" (appended (trace (snd r))) = 0%nat /\
  map type (events (logger (self (snd r)))) = ["query_start"].
Proof.
  vm_compute. repeat split.
Qed.

(** C4, at the failing input: the final-answer check reports a variable
    it cannot resolve through [logger.log_tool_execution].  The
    [tool_execution] Event is appended to the log (and is in the events the
    run returns), but the callback is never invoked with it: the loop
    forwards [logger.events[-1]] only after its own logging calls. *)
Theorem tool_execution_event_is_not_forwarded :
  let r := scripted.run scripted.unresolved_variable 0%nat 5
             (VStr "Paris is the capital of France.")
             (VStr "What is the capital of France?") true in
  option_map answer (match fst r with inr c => Some c | inl _ => None end)
    = Some "Paris" /\
  map type (appended (trace (snd r))) =
    ["query_start"; "model_response"; "tool_execution"; "model_response";
     "final_answer"] /\
  map type (events (logger (self (snd r)))) =
    ["query_start"; "model_response"; "tool_execution"; "model_response";
     "final_answer"] /\
  map type (callbacks (trace (snd r))) =
    ["query_start"; "model_response"; "model_response"; "final_answer"].
Proof.
  vm_compute. repeat split.
Qed.

(** The scripted collaborators meet the assumptions of the lemmas on
    fault-free and non-matching runs. *)
Lemma plain_has_no_faults : no_faults scripted.plain.
Proof.
  repeat split.
  - intros msgs w'. exists "". simpl. now destruct w'.
  - intros r ms ex w'. eexists. reflexivity.
  - intros r w'. eexists. reflexivity.
Qed.

Lemma plain_never_matches : never_matches scripted.plain.
Proof.
  intros r w'. split.
  - intros o Ho. simpl in Ho. injection Ho as <-. reflexivity.
  - constructor.
Qed.

Lemma no_match_runs_every_iteration_witness :
  no_faults scripted.plain /\
  never_matches scripted.plain /\
  exists result st',
    scripted.run scripted.plain 0%nat 3 (VStr "context") (VStr "query") true
      = (inr result, st') /\
    model_calls (trace st') = 4%nat /\
    count_type "model_response" (appended (trace st')) = 3%nat.
Proof.
  split; [exact plain_has_no_faults|]. split; [exact plain_never_matches|].
  destruct (no_match_runs_every_iteration scripted.plain (VStr "context")
              (VStr "query") true (scripted.fresh scripted.plain 0%nat 3)
              plain_has_no_faults plain_never_matches eq_refl)
    as [result [st' [tr [Hrun [Htr [Hcalls [Hmr _]]]]]]].
  exists result, st'. split; [exact Hrun|].
  rewrite Htr. change (trace (scripted.fresh scripted.plain 0%nat 3)) with (@nil Action).
  split; [exact Hcalls | exact Hmr].
Defined.

Lemma loop_appends_are_forwarded_at_once_witness :
  silent_check scripted.plain /\
  synchronous
    (trace (snd (scripted.run scripted.plain 0%nat 3 (VStr "context")
                   (VStr "query") true))).
Proof.
  assert (Hsilent : silent_check scripted.plain) by (intros r w'; reflexivity).
  split; [exact Hsilent|].
  assert (Hrun : completion scripted.plain (VStr "context") (VStr "query") true
                   (scripted.fresh scripted.plain 0%nat 3)
                 = (fst (scripted.run scripted.plain 0%nat 3 (VStr "context")
                           (VStr "query") true),
                    snd (scripted.run scripted.plain 0%nat 3 (VStr "context")
                           (VStr "query") true)))
    by (vm_compute; reflexivity).
  destruct (loop_appends_are_forwarded_at_once scripted.plain (VStr "context")
              (VStr "query") (scripted.fresh scripted.plain 0%nat 3) _ _
              Hsilent Hrun) as [tr [Htr Hsync]].
  rewrite Htr.
  change (trace (scripted.fresh scripted.plain 0%nat 3)) with (@nil Action).
  exact Hsync.
Defined.

Lemma fault_with_description_ends_in_error_frame_witness :
  let C := scripted.rate_limited in
  let s := app.exec C scripted.ten_iterations 0%nat scripted.worker_first
             (app.generate scripted.ten_iterations) in
  app.pc s = app.Finished /\
  last (app.yielded s) "" =
  app.sse C (app.error_frame "rate limit exceeded").
Proof.
  intros C s.
  assert (Hfault : fst (app.run_rlm_try C scripted.ten_iterations 0%nat)
                   = inl (Fault "rate limit exceeded"))
    by (vm_compute; reflexivity).
  assert (Hdescr : str_exn (Fault "rate limit exceeded") <> "") by discriminate.
  assert (Hp : app.pc s = app.Finished) by (vm_compute; reflexivity).
  split; [exact Hp|].
  destruct (fault_with_description_ends_in_error_frame C
              scripted.ten_iterations 0%nat (Fault "rate limit exceeded")
              scripted.worker_first Hfault Hdescr Hp) as [Hy _].
  fold C s in Hy. rewrite Hy. apply last_last.
Defined.

(** C7, at the failing input: the Model raises on iteration 2 of a
    10-iteration run, after the Events of iterations 0 and 1 were emitted,
    with an exception whose [str] is empty.  Under every interleaving, the
    consumer receives the three prior Events and no [final_answer] Event,
    but the terminal frame is the [complete] frame with a null answer, not
    an [error] frame: [if error_occurred:] takes the empty description for
    no error. *)
Theorem empty_fault_description_ends_in_complete_frame
    (dumps : Value -> string) (schedule : list app.Thread) :
  let C := scripted.failing_model dumps in
  let s := app.exec C scripted.ten_iterations 0%nat schedule
             (app.generate scripted.ten_iterations) in
  app.pc s = app.Finished ->
  app.final_flags (app.run_rlm C scripted.ten_iterations 0%nat) = (Some "", None) /\
  exists evs,
    app.pushed (app.run_rlm C scripted.ten_iterations 0%nat) = evs /\
    map type evs = ["query_start"; "model_response"; "model_response"] /\
    app.yielded s =
      map (app.frame_of C) evs ++ [app.sse C (app.complete_frame None)].
Proof.
  intros C s Hp.
  pose proof (finished_stream C scripted.ten_iterations 0%nat schedule Hp)
    as Hy.
  fold s in Hy.
  split; [reflexivity|].
  eexists. split; [reflexivity|]. split; [reflexivity|].
  rewrite Hy. reflexivity.
Qed.

Lemma empty_fault_description_ends_in_complete_frame_witness :
  let C := scripted.failing_model (fun _ => "{}") in
  let s := app.exec C scripted.ten_iterations 0%nat scripted.worker_first
             (app.generate scripted.ten_iterations) in
  app.pc s = app.Finished /\
  List.length (app.yielded s) = 4%nat.
Proof.
  intros C s.
  assert (Hp : app.pc s = app.Finished) by (vm_compute; reflexivity).
  split; [exact Hp|].
  destruct (empty_fault_description_ends_in_complete_frame (fun _ => "{}")
              scripted.worker_first Hp) as [_ [evs [_ [Hty Hy]]]].
  fold C s in Hy. rewrite Hy, length_app, length_map.
  rewrite <- (length_map type), Hty. reflexivity.
Defined.

(** ** Further properties of a run *)


Section RunFacts.
Variable C : Collaborators.

Lemma iterations_model_calls (cb : bool) (trs : list (list Action)) :
  Forall (fun tr => exists r', iteration_trace C cb r' tr) trs ->
  model_calls (List.concat trs) = List.length trs.
Proof.
  induction 1 as [|tr r [r' Htr] _ IH]; simpl; [reflexivity|].
  now rewrite model_calls_app, (iteration_model_calls C _ _ _ Htr), IH.
Qed.

Lemma loop_trace_length (cb : bool) (n : nat) (r : Result LoopExit)
    (trs : list (list Action)) :
  loop_trace C cb n r trs -> (List.length trs <= n)%nat.
Proof.
  destruct r as [e|[a|b]]; simpl.
  - intros [init [final [_ [Hlen _]]]]. exact Hlen.
  - intros [init [final [_ [Hlen _]]]]. exact Hlen.
  - intros [Hlen _]. lia.
Qed.

(** X4. Whatever the collaborators do and however the run ends, a run of
    [completion] calls the Model at most [max_iterations + 1] times: once
    per iteration and once more for the forced final answer. *)
Theorem model_calls_bounded (context q : Value) (cb : bool) (st : Run C) :
  (model_calls (trace (snd (completion C context q cb st))) <=
   model_calls (trace st) + Z.to_nat (max_iterations (self st)) + 1)%nat.
Proof.
  destruct (completion C context q cb st) as [r st'] eqn:Hrun. simpl.
  destruct (completion_trace C context q cb st st' r Hrun) as [qs [_ Hcases]].
  destruct Hcases as [[e [_ [_ Htr]]]|[trs [tail [Htr Hend]]]].
  - rewrite Htr. change (AClear :: observe cb qs) with ([AClear] ++ observe cb qs).
    rewrite !model_calls_app, model_calls_observe. simpl. lia.
  - rewrite Htr. change (AClear :: observe cb qs) with ([AClear] ++ observe cb qs).
    rewrite !model_calls_app, model_calls_observe.
    assert (Hloop : forall lr, loop_trace C cb (Z.to_nat (max_iterations (self st))) lr trs ->
                               (model_calls (List.concat trs)
                                <= Z.to_nat (max_iterations (self st)))%nat).
    { intros lr H.
      rewrite (iterations_model_calls cb trs (loop_trace_iterations C _ _ _ _ H)).
      exact (loop_trace_length _ _ _ _ H). }
    inversion Hend as [e trs' Hl
                      |a evs trs' Hl
                      |Hn
                      |b trs' msgs w e Hn Hl He
                      |b trs' msgs w s fa evs Hn Hl Hs Hfa Hda]; subst;
      try specialize (Hloop _ Hl);
      rewrite ?model_calls_app, ?model_calls_observe;
      unfold model_calls in *; simpl in *; lia.
Qed.

(** X6. The loop over the new execution records never fails, whatever
    the log holds: it appends exactly one [code_execution] Event per record, in
    the records' order, each carrying the record's code, output, errors
    and time and the step of the current iteration; it hands each of them
    to the callback when one is registered; and it leaves the Events
    already in the log and the step counter as they were. *)
Theorem new_executions_are_logged_in_order (l : list Execution) :
  forall st : Run C,
  exists ces st',
    log_new_executions C l st = (inr tt, st') /\
    events (logger (self st')) = events (logger (self st)) ++ ces /\
    map type ces = map (fun _ => "code_execution") l /\
    map data ces = map execution_data l /\
    map step ces = map (fun _ => Some (conversation_step (logger (self st)))) l /\
    conversation_step (logger (self st')) = conversation_step (logger (self st)) /\
    callbacks (trace st') =
      callbacks (trace st) ++ (if event_callback (self st) then ces else []).
Proof.
  induction l as [|x r IH]; intros st; simpl.
  - exists [], st. rewrite !app_nil_r. repeat split.
    destruct (event_callback (self st)); now rewrite app_nil_r.
  - set (e := mkEvent "code_execution" (clock C (world st)) (execution_data x)
                (Some (conversation_step (logger (self st))))).
    rewrite (log_stream_bind C _ _ _ e) by reflexivity.
    match goal with
    | |- context [log_new_executions C r ?s] =>
        destruct (IH s) as [ces [st' [Hrun [Hev [Hty [Hda [Hst [Hcs Hcb]]]]]]]]
    end.
    cbn [self trace logger set_logger logger_call log_code_execution events
         conversation_step event_callback] in Hev, Hst, Hcs, Hcb.
    exists (e :: ces), st'. split; [exact Hrun|].
    split; [rewrite Hev, <- app_assoc; reflexivity|].
    split; [simpl; now rewrite Hty|].
    split; [simpl; now rewrite Hda|].
    split; [simpl; now rewrite Hst|].
    split; [exact Hcs|].
    rewrite Hcb, callbacks_app, callbacks_observe.
    destruct (event_callback (self st)); simpl; now rewrite <- app_assoc.
Qed.






Lemma returning_iteration (cb : bool) (a : string) (tr : list Action) :
  iteration_trace C cb (inr (Some a)) tr ->
  exists pre fa,
    tr = pre ++ observe cb fa /\
    type fa = "final_answer" /\
    data fa = [("answer", VStr a)] /\
    Forall (fun e => type e <> "final_answer") (callbacks pre).
Proof.
  intros H.
  inversion H as [| | | |msgs w mr fa response mid chk a' Hmr Hmid [Hchk _] Ho Ht Hfa Hda];
    subst.
  exists ([AModel msgs] ++ observe cb mr ++ mid ++ [ACheck response] ++ chk), fa.
  split; [now rewrite <- !app_assoc|]. split; [exact Hfa|]. split; [exact Hda|].
  destruct (dispatched_appended cb response mid Hmid) as [Hces Hcbs].
  rewrite !callbacks_app, callbacks_observe, Hcbs, (callbacks_log_actions _ Hchk).
  simpl. rewrite app_nil_r.
  destruct cb; simpl; repeat constructor.
  - rewrite Hmr. discriminate.
  - eapply Forall_impl; [|exact Hces]. intros x Hx. rewrite Hx. discriminate.
Qed.

(** A run that returns has handed its Events to the callback in order,
    and the last thing it did was to append the [final_answer] Event that
    carries the returned answer (and hand it to the callback): no other
    [final_answer] Event was handed over before, and nothing happens after
    it. *)
Lemma returned_run_ends_with_final_answer
    (context q : Value) (cb : bool) (st st' : Run C) (result : Completion) :
  completion C context q cb st = (inr result, st') ->
  exists tr fa,
    trace st' = trace st ++ tr ++ observe cb fa /\
    type fa = "final_answer" /\
    data fa = [("answer", VStr (answer result))] /\
    Forall (fun e => type e <> "final_answer") (callbacks tr).
Proof.
  intros Hrun.
  destruct (completion_trace C context q cb st st' _ Hrun) as [qs [Hqs Hcases]].
  destruct Hcases as [[e [He _]]|[trs [tail [Htr Hend]]]]; [discriminate|].
  assert (Hhead : Forall (fun ev => type ev <> "final_answer")
                    (callbacks (AClear :: observe cb qs))).
  { change (AClear :: observe cb qs) with ([AClear] ++ observe cb qs).
    rewrite callbacks_app, callbacks_observe. destruct cb; simpl;
      repeat constructor. rewrite Hqs. discriminate. }
  assert (Hnone : forall l, Forall (iteration_trace C cb (inr None)) l ->
                            Forall (fun ev => type ev <> "final_answer")
                              (callbacks (List.concat l))).
  { intros l Hl. apply callbacks_concat.
    eapply Forall_impl; [|exact Hl]. intros tr Htr'.
    apply (iteration_callbacks C _ _ _ Htr'). discriminate. }
  inversion Hend as [
                    |a evs trs' Hl
                    |
                    |
                    |b trs' msgs w s fa evs Hn Hl Hs Hfa Hda]; subst.
  - destruct Hl as [init [final [-> [_ [Hinit Hfinal]]]]].
    destruct (returning_iteration cb a final Hfinal)
      as [pre [fa [-> [Hfa [Hda Hpre]]]]].
    exists ((AClear :: observe cb qs) ++ List.concat init ++ pre), fa.
    split; [|split; [exact Hfa|split; [exact Hda|]]].
    + rewrite Htr, concat_app. simpl. now rewrite !app_nil_r, <- !app_assoc.
    + rewrite !callbacks_app. apply Forall_app. split; [exact Hhead|].
      apply Forall_app. split; [now apply Hnone | exact Hpre].
  - destruct Hl as [_ Hall].
    exists ((AClear :: observe cb qs) ++ List.concat trs ++ [AModel msgs]), fa.
    split; [|split; [exact Hfa|split; [exact Hda|]]].
    + rewrite Htr. now rewrite <- !app_assoc.
    + rewrite !callbacks_app. apply Forall_app. split; [exact Hhead|].
      apply Forall_app. split; [now apply Hnone | constructor].
Qed.
End RunFacts.

Section StreamFacts.
Variable C : Collaborators.
Variable env : app.Closure.
Variable w : World C.

(** X5. When the worker's run returns an answer, then under every
    interleaving the finished stream is exactly the frames of the Events
    the run handed to the callback, in that order, followed by the
    [complete] frame.  The last Event handed over is the [final_answer]
    Event, the only one of that type, and it and the [complete] frame
    both carry the answer the run returned. *)
Theorem returned_answer_ends_in_complete_frame
    (result : Completion) (schedule : list app.Thread) :
  fst (app.run_rlm_try C env w) = inr result ->
  let s := app.exec C env w schedule (app.generate env) in
  let delivered := callbacks (trace (snd (app.run_rlm_try C env w))) in
  app.pc s = app.Finished ->
  app.yielded s =
    map (app.frame_of C) delivered ++
    [app.sse C (app.complete_frame (Some (answer result)))] /\
  exists evs fa,
    delivered = evs ++ [fa] /\
    type fa = "final_answer" /\
    data fa = [("answer", VStr (answer result))] /\
    Forall (fun e => type e <> "final_answer") evs.
Proof.
  intros Hret s delivered Hp.
  pose proof (finished_stream C env w schedule Hp) as Hy. fold s in Hy.
  unfold app.expected_stream, app.run_rlm in Hy.
  unfold delivered. clear delivered.
  unfold app.run_rlm_try in *.
  unfold RLM_WEB_init, external in *. cbn [world self trace] in *.
  destruct (OpenAIClient C _ _ _ w) as [[e0|[]] w0]; [discriminate|].
  destruct (completion C (app.context env) (app.query_text env) true _)
    as [r st'] eqn:Hrun.
  simpl in Hret. subst r.
  destruct (returned_run_ends_with_final_answer C _ _ _ _ _ _ Hrun)
    as [tr [fa [Htr [Hfa [Hda Hno]]]]].
  simpl in Htr. cbn [snd]. split.
  - rewrite Hy, pushed_puts. unfold app.final_flags. rewrite final_flags_puts.
    simpl. now rewrite app_nil_r.
  - exists (callbacks tr), fa. split; [|split; [exact Hfa|split; [exact Hda|exact Hno]]].
    rewrite Htr, callbacks_app. reflexivity.
Qed.
End StreamFacts.

(** X5 on a concrete run: the first reply names a variable the REPL does
    not hold, the second answers; the stream carries the query, the two
    replies and the answer, then the [complete] frame. *)
Lemma returned_answer_ends_in_complete_frame_witness :
  let C := scripted.unresolved_variable in
  let s := app.exec C scripted.ten_iterations 0%nat
             (app.Consumer :: repeat app.Worker 6 ++ repeat app.Consumer 6)
             (app.generate scripted.ten_iterations) in
  app.pc s = app.Finished /\
  List.length (app.yielded s) = 5%nat /\
  last (app.yielded s) "" = app.sse C (app.complete_frame (Some "Paris")).
Proof.
  intros C s.
  assert (Hp : app.pc s = app.Finished) by (vm_compute; reflexivity).
  split; [exact Hp|].
  split; [vm_compute; reflexivity|].
  destruct (returned_answer_ends_in_complete_frame C scripted.ten_iterations
              0%nat
              (mkCompletion "Paris"
                 (result_events
                    (match fst (app.run_rlm_try C scripted.ten_iterations 0%nat) with
                     | inr c => c
                     | inl _ => mkCompletion "" []
                     end)))
              (app.Consumer :: repeat app.Worker 6 ++ repeat app.Consumer 6)
              ltac:(vm_compute; reflexivity) Hp)
    as [Hy _].
  fold C s in Hy. rewrite Hy. apply last_last.
Defined.

(** ** What every run keeps *)

Section Preservation.
Variable C : Collaborators.
Variable I : Run C -> Prop.
Hypothesis I_world : forall st w, I st -> I (mkRun (self st) w (trace st)).
Hypothesis I_emit :
  forall st a, forallb (fun x => negb (log_action x)) a = true ->
               I st -> I (mkRun (self st) (world st) (trace st ++ a)).
Hypothesis I_self :
  forall st f, (forall r, logger (f r) = logger r) ->
               I st -> I (mkRun (f (self st)) (world st) (trace st)).
Hypothesis I_log : forall c, keeps I (log C c).

Lemma keeps_ret {A : Type} (a : A) : keeps I (ret (C := C) a).
Proof.
  intros st H. exact H.
Qed.

Lemma keeps_raise {A : Type} (e : Exn) : keeps I (raise (C := C) (A := A) e).
Proof.
  intros st H. exact H.
Qed.

Lemma keeps_read {A : Type} (f : RLM_WEB -> A) : keeps I (read (C := C) f).
Proof.
  intros st H. exact H.
Qed.

Lemma keeps_emit (a : list Action) :
  forallb (fun x => negb (log_action x)) a = true -> keeps I (emit (C := C) a).
Proof.
  intros Ha st H. now apply I_emit.
Qed.

Lemma keeps_update (f : RLM_WEB -> RLM_WEB) :
  (forall r, logger (f r) = logger r) -> keeps I (update_self (C := C) f).
Proof.
  intros Hf st H. now apply I_self.
Qed.

Lemma keeps_external {A : Type} (f : World C -> Result A * World C) :
  keeps I (external f).
Proof.
  intros st H. unfold external. destruct (f (world st)) as [r w'].
  now apply I_world.
Qed.

Lemma keeps_bind {A B : Type} (m : M C A) (k : A -> M C B) :
  keeps I m -> (forall a, keeps I (k a)) -> keeps I (bind m k).
Proof.
  intros Hm Hk st H. unfold bind. specialize (Hm st H).
  destruct (m st) as [[e|a] st1]; simpl in *; [exact Hm|].
  now apply Hk.
Qed.

Ltac keeps_step :=
  first
    [ apply I_log
    | apply keeps_ret
    | apply keeps_raise
    | apply keeps_read
    | apply keeps_emit; reflexivity
    | apply keeps_update; intro; reflexivity
    | apply keeps_external
    | apply keeps_bind; [|intro]
    | match goal with
      | |- keeps _ (match ?x with _ => _ end) => destruct x
      end ].

Lemma keeps_stream : keeps I (stream_last_event C).
Proof.
  unfold stream_last_event. repeat keeps_step.
Qed.

Lemma keeps_logs (cs : list LoggerCall) : keeps I (logs C cs).
Proof.
  induction cs as [|c r IH]; simpl; repeat first [exact IH | keeps_step].
Qed.

Lemma keeps_log_new_executions (l : list Execution) :
  keeps I (log_new_executions C l).
Proof.
  induction l as [|x r IH]; simpl;
    repeat first [exact IH | apply keeps_stream | keeps_step].
Qed.

Lemma keeps_call_llm (msgs : list Message) : keeps I (call_llm C msgs).
Proof.
  unfold call_llm. repeat keeps_step.
Qed.

Lemma keeps_loop_body (q : Value) (i : Z) : keeps I (loop_body C q i).
Proof.
  unfold loop_body. cbv zeta.
  repeat first [ apply keeps_call_llm | apply keeps_stream | apply keeps_logs
               | apply keeps_log_new_executions | keeps_step ].
Qed.

Lemma keeps_for_iteration (q : Value) (n : nat) :
  forall i b, keeps I (for_iteration C q n i b).
Proof.
  induction n as [|n IH]; intros i b; simpl;
    repeat first [apply IH | apply keeps_loop_body | keeps_step].
Qed.

Lemma establishes_bind {A B : Type} (m : M C A) (k : A -> M C B) :
  (forall st, I (snd (m st))) -> (forall a, keeps I (k a)) ->
  forall st, I (snd (bind m k st)).
Proof.
  intros Hm Hk st. unfold bind. specialize (Hm st).
  destruct (m st) as [[e|a] st1]; simpl in *; [exact Hm|].
  now apply Hk.
Qed.

Lemma establishes_after_update {A : Type} (f : RLM_WEB -> RLM_WEB) (m : M C A) :
  (forall st, I (snd (m st))) ->
  forall st, I (snd (bind (update_self f) (fun _ => m) st)).
Proof.
  intros Hm st. unfold bind, update_self. apply Hm.
Qed.

(** Whatever state [completion] starts in, a property that the first
    [log_query_start] establishes and that the later steps keep holds when
    it ends, however it ends. *)
Lemma completion_establishes (context q : Value) (cb : bool) :
  (forall q' st, I (snd (log C (Call_log_query_start q') st))) ->
  forall st, I (snd (completion C context q cb st)).
Proof.
  intros Hstart. unfold completion.
  apply establishes_after_update. apply establishes_bind.
  - unfold setup_context. cbv zeta.
    apply establishes_after_update. apply establishes_bind.
    + apply Hstart.
    + intros []. repeat first [ apply keeps_stream | keeps_step ].
  - intros msgs.
    repeat first [ apply keeps_for_iteration | apply keeps_call_llm
                 | apply keeps_stream | keeps_step ].
Qed.
End Preservation.

Lemma replay_from_app (a b : list Action) :
  forall acc, replay_from acc (a ++ b) = replay_from (replay_from acc a) b.
Proof.
  induction a as [|x r IH]; intros acc; simpl; [reflexivity|].
  destruct x; apply IH.
Qed.

Lemma replay_from_other (a : list Action) :
  forallb (fun x => negb (log_action x)) a = true ->
  forall acc, replay_from acc a = acc.
Proof.
  induction a as [|x r IH]; intros H acc; simpl in *; [reflexivity|].
  apply andb_true_iff in H. destruct H as [Hx Hr].
  destruct x; try discriminate; now apply IH.
Qed.

(** A trace in which every append is followed at once by its callback and
    nothing clears the log leaves behind exactly the Events it handed to
    the callback. *)
Lemma replay_synchronous (tr : list Action) :
  synchronous tr -> clear_free tr = true ->
  forall acc, replay_from acc tr = acc ++ callbacks tr.
Proof.
  induction 1 as [|e r Hr IH|a r Ha Hr IH]; intros Hfree acc.
  - simpl. now rewrite app_nil_r.
  - simpl in *. rewrite (IH Hfree). now rewrite <- app_assoc.
  - simpl in Hfree. apply andb_true_iff in Hfree. destruct Hfree as [Hx Hfree].
    destruct a; try discriminate; try contradiction; simpl; now apply IH.
Qed.

Lemma clear_free_app (a b : list Action) :
  clear_free (a ++ b) = clear_free a && clear_free b.
Proof.
  unfold clear_free. apply forallb_app.
Qed.

Lemma clear_free_observe (cb : bool) (e : Event) : clear_free (observe cb e) = true.
Proof.
  destruct cb; reflexivity.
Qed.

Lemma clear_free_observed (cb : bool) (evs : list Event) :
  clear_free (flat_map (observe cb) evs) = true.
Proof.
  induction evs as [|e r IH]; simpl; [reflexivity|].
  destruct cb; exact IH.
Qed.

Lemma clear_free_concat (trs : list (list Action)) :
  Forall (fun tr => clear_free tr = true) trs ->
  clear_free (List.concat trs) = true.
Proof.
  induction 1 as [|tr r Htr _ IH]; simpl; [reflexivity|].
  now rewrite clear_free_app, Htr, IH.
Qed.

Section RunLog.
Variable C : Collaborators.

Lemma logger_inv_kept (c : LoggerCall) :
  keeps (fun st : Run C => logger_inv (logger (self st))) (log C c).
Proof.
  intros st H. rewrite log_run. cbv zeta. cbn [snd self logger set_logger].
  now apply logger_call_inv.
Qed.

(** X8. Whatever the collaborators do (the final-answer check may call
    any method of the logger), whatever state the logger was in before, and
    however the run ends, the log a run of [completion] leaves behind
    follows the step discipline: a [model_response] Event carries the
    number of [model_response] Events up to and including itself, a
    [code_execution], [repl_output] or [tool_execution] Event the number
    of those before it, the others no step, and the step counter is the
    number of [model_response] Events in the log. *)
Theorem run_log_is_well_stepped (context q : Value) (cb : bool) (st : Run C) :
  let lg := logger (self (snd (completion C context q cb st))) in
  (forall i e, nth_error (events lg) i = Some e ->
     step_ok (Z.of_nat (count_type "model_response" (firstn i (events lg)))) e) /\
  conversation_step lg = Z.of_nat (count_type "model_response" (events lg)).
Proof.
  intros lg.
  assert (H : logger_inv lg).
  { unfold lg.
    apply (completion_establishes C (fun st => logger_inv (logger (self st)))).
    - intros st0 w0 H0. exact H0.
    - intros st0 a _ H0. exact H0.
    - intros st0 f Hf H0. cbn [self]. now rewrite Hf.
    - apply logger_inv_kept.
    - intros q' st0. rewrite log_run. cbv zeta. cbn [snd self logger set_logger].
      apply log_query_start_inv. }
  destruct H as [Hs Hc]. split; [|exact Hc].
  intros i e Hi. now apply stepped_nth.
Qed.

Lemma coherent_kept (c : LoggerCall) : keeps (coherent (C := C)) (log C c).
Proof.
  intros st H. unfold coherent in *. rewrite log_run. cbv zeta.
  cbn [snd self trace logger set_logger]. unfold replay in *.
  rewrite replay_from_app, <- H. unfold log_actions.
  destruct c; simpl; rewrite ?last_snoc; reflexivity.
Qed.

Lemma completion_is_coherent (context q : Value) (cb : bool) (st : Run C) :
  coherent (snd (completion C context q cb st)).
Proof.
  apply (completion_establishes C (coherent (C := C))).
  - intros st0 w0 H0. exact H0.
  - intros st0 a Ha H0. unfold coherent, replay in *. cbn [self trace].
    now rewrite replay_from_app, (replay_from_other a Ha).
  - intros st0 f Hf H0. unfold coherent in *. cbn [self trace]. now rewrite Hf.
  - apply coherent_kept.
  - intros q' st0. unfold coherent, replay. rewrite log_run. cbv zeta.
    cbn [snd self trace logger set_logger]. rewrite replay_from_app.
    reflexivity.
Qed.
End RunLog.

Section StreamAndLog.
Variable C : Collaborators.

Lemma dispatched_clear_free (cb : bool) (response : string) (mid : list Action) :
  dispatched cb response mid -> clear_free mid = true.
Proof.
  intros [->|[ces [-> _]]]; [reflexivity|].
  simpl. apply clear_free_observed.
Qed.

Lemma iteration_clear_free (cb : bool) (r : Result (option string))
    (tr : list Action) :
  silent_check C ->
  iteration_trace C cb r tr -> clear_free tr = true.
Proof.
  intros Hsilent H;
    destruct H as [msgs w e He
                  |msgs ms ex w mr response e Hmr He
                  |msgs w mr response mid chk e Hmr Hmid [_ [Hchk _]] He
                  |msgs w mr response mid chk o Hmr Hmid [_ [Hchk _]] Ho Ht
                  |msgs w mr fa response mid chk a Hmr Hmid [_ [Hchk _]] Ho Ht Hfa Hda];
    try rewrite (Hchk (Hsilent _ _));
    rewrite ?clear_free_app, ?clear_free_observe,
      ?(dispatched_clear_free _ _ _ Hmid);
    reflexivity.
Qed.

(** With a registered callback and a check that logs nothing, what a run
    adds to the trace is the clearing of the log by [log_query_start] and
    then appends that are each followed at once by their callback. *)
Lemma silent_run_is_streamed
    (context q : Value) (st st' : Run C) (r : Result Completion) :
  silent_check C ->
  completion C context q true st = (r, st') ->
  exists rest,
    trace st' = trace st ++ AClear :: rest /\
    synchronous rest /\ clear_free rest = true.
Proof.
  intros Hsilent Hrun.
  destruct (completion_trace C context q true st st' r Hrun) as [qs [Hqs Hcases]].
  destruct Hcases as [[e [_ [_ Htr]]]|[trs [tail [Htr Hend]]]].
  { exists (observe true qs). split; [exact Htr|].
    split; [apply synchronous_observe | reflexivity]. }
  exists (observe true qs ++ List.concat trs ++ tail).
  split; [exact Htr|].
  assert (Hloop : forall n lr, loop_trace C true n lr trs ->
                    synchronous (List.concat trs) /\
                    clear_free (List.concat trs) = true).
  { intros n lr H. pose proof (loop_trace_iterations C _ _ _ _ H) as Hall. split.
    - apply synchronous_concat. eapply Forall_impl; [|exact Hall].
      intros tr [r' Hr']. exact (iteration_synchronous C r' tr Hsilent Hr').
    - apply clear_free_concat. eapply Forall_impl; [|exact Hall].
      intros tr [r' Hr']. exact (iteration_clear_free true r' tr Hsilent Hr'). }
  assert (Htail : synchronous tail /\ clear_free tail = true).
  { inversion Hend; subst; split; try reflexivity;
      repeat (apply sync_nil || (apply sync_other; [exact I|])
              || apply synchronous_observe
              || apply (synchronous_app [AModel _])). }
  assert (Htrs : synchronous (List.concat trs) /\
                 clear_free (List.concat trs) = true).
  { inversion Hend; subst; try (eapply Hloop; eassumption).
    split; [constructor | reflexivity]. }
  destruct Htail as [Hts Htc]. destruct Htrs as [Hls Hlc]. split.
  - repeat apply synchronous_app; try assumption. apply synchronous_observe.
  - now rewrite !clear_free_app, Hlc, Htc.
Qed.

Lemma bind_returns {A B : Type} (m : M C A) (k : A -> M C B) (st st' : Run C)
    (b : B) :
  bind m k st = (inr b, st') ->
  exists a st1, m st = (inr a, st1) /\ k a st1 = (inr b, st').
Proof.
  unfold bind. destruct (m st) as [[e|a] st1]; [discriminate|].
  intros H. now exists a, st1.
Qed.

(** What [completion] returns beside the answer is the log as it is when
    it returns, as wire records. *)
Lemma completion_returns_log
    (context q : Value) (cb : bool) (st st' : Run C) (result : Completion) :
  completion C context q cb st = (inr result, st') ->
  result_events result = get_events (logger (self st')).
Proof.
  assert (Hret : forall a s s' res,
             return_completion C a s = (inr res, s') ->
             result_events res = get_events (logger (self s'))).
  { intros a s s' res H. unfold return_completion, bind, read, ret in H.
    now injection H as <- <-. }
  intros H. unfold completion in H.
  repeat match type of H with
         | bind _ _ _ = _ =>
             apply bind_returns in H; destruct H as [? [? [_ H]]]
         end.
  match type of H with
  | match ?x with _ => _ end _ = _ => destruct x as [a|b]
  end; [now apply Hret in H|].
  repeat match type of H with
         | bind _ _ _ = _ =>
             apply bind_returns in H; destruct H as [? [? [_ H]]]
         end.
  now apply Hret in H.
Qed.

(** X9. With a registered callback and a final-answer check that logs
    nothing, the stream and the log of a run agree, however the run ends:
    the Events handed to the callback are, in order, exactly the Events
    of the log at the end, and for a run that returns, the [events] it
    returns are the wire records of exactly the Events it streamed. *)
Theorem stream_and_log_agree
    (context q : Value) (st st' : Run C) (r : Result Completion)
    (Hsilent : silent_check C)
    (Hrun : completion C context q true st = (r, st')) :
  exists tr,
    trace st' = trace st ++ tr /\
    callbacks tr = events (logger (self st')) /\
    (forall result, r = inr result ->
       result_events result = map to_dict (callbacks tr)).
Proof.
  destruct (silent_run_is_streamed context q st st' r Hsilent Hrun)
    as [rest [Htr [Hsync Hfree]]].
  exists (AClear :: rest). split; [exact Htr|].
  assert (Hlog : callbacks (AClear :: rest) = events (logger (self st'))).
  { pose proof (completion_is_coherent C context q true st) as Hcoh.
    rewrite Hrun in Hcoh. unfold coherent, replay in Hcoh. simpl in Hcoh.
    rewrite Hcoh, Htr, replay_from_app. simpl.
    now rewrite (replay_synchronous rest Hsync Hfree). }
  split; [exact Hlog|].
  intros result ->. rewrite Hlog.
  exact (completion_returns_log context q true st st' result Hrun).
Qed.
End StreamAndLog.

Lemma stream_and_log_agree_witness :
  let run := scripted.run scripted.plain 0%nat 3 (VStr "context")
               (VStr "query") true in
  silent_check scripted.plain /\
  callbacks (trace (snd run)) = events (logger (self (snd run))).
Proof.
  intros run.
  assert (Hsilent : silent_check scripted.plain) by (intros r w'; reflexivity).
  split; [exact Hsilent|].
  assert (Hrun : completion scripted.plain (VStr "context") (VStr "query") true
                   (scripted.fresh scripted.plain 0%nat 3)
                 = (fst run, snd run))
    by (vm_compute; reflexivity).
  destruct (stream_and_log_agree scripted.plain (VStr "context") (VStr "query")
              (scripted.fresh scripted.plain 0%nat 3) (snd run) (fst run)
              Hsilent Hrun) as [tr [Htr [Hcb _]]].
  rewrite Htr.
  change (trace (scripted.fresh scripted.plain 0%nat 3)) with (@nil Action).
  exact Hcb.
Defined.

(** ** The bridge at every moment, and the requests it accepts *)

Section Conservation.
Variable C : Collaborators.
Variable env : app.Closure.
Variable w : World C.

Lemma queued_events_some (qs : list Event) : queued_events (map Some qs) = qs.
Proof.
  induction qs as [|e r IH]; simpl; [reflexivity|]. now rewrite IH.
Qed.

Lemma queued_events_app (a b : list (option Event)) :
  queued_events (a ++ b) = queued_events a ++ queued_events b.
Proof.
  unfold queued_events. apply flat_map_app.
Qed.

(** X10. Under every interleaving, while the generator polls or joins,
    every Event of the run is in exactly one place, and the three places taken
    in order give the Events of the run in the order the worker puts
    them: those already yielded (as frames), those waiting in the queue,
    and those the worker has still to put.  The sentinel is in the queue
    only when the worker has nothing left to do, and then it is the last
    item. *)
Theorem events_are_conserved (schedule : list app.Thread) :
  let s := app.exec C env w schedule (app.generate env) in
  match app.pc s with
  | app.Polling | app.Joining =>
      exists ys,
        app.yielded s = map (app.frame_of C) ys /\
        ys ++ queued_events (app.events_queue s) ++ app.pushed (app.rlm_thread s)
          = app.pushed (app.run_rlm C env w) /\
        (In None (app.events_queue s) ->
           app.rlm_thread s = [] /\
           exists qs, app.events_queue s = map Some qs ++ [None])
  | _ => True
  end.
Proof.
  intros s.
  destruct (run_rlm_shape C env w) as [evs [fin [Hprog [Hfin [Hpushed _]]]]].
  assert (Hinv : app.bridge_inv C evs fin s).
  { apply exec_inv; [exact Hprog | exact Hfin | constructor]. }
  rewrite Hpushed. clear Hpushed Hprog.
  assert (Hnone : forall qs : list Event, ~ In None (map Some qs)).
  { intros qs H. apply in_map_iff in H. destruct H as [x [Hx _]]. discriminate. }
  assert (Hfinp : app.pushed [fin; app.Put None] = []).
  { destruct fin; try discriminate; reflexivity. }
  destruct Hinv as [|ys qs rest s He Hpc Hth Hq Hy Hf
                    |ys qs s He Hpc Hth Hq Hy Hf
                    |ys qs s He Hpc Hth Hq Hy Hf
                    |s Hpc Hth Hq Hy Hf
                    |s Hpc Hth Hy];
    try rewrite Hpc; try exact I.
  - exists ys. rewrite Hy, Hq, Hth, queued_events_some, pushed_puts, Hfinp,
      app_nil_r.
    split; [reflexivity|]. split; [symmetry; exact He|].
    intros H. exfalso. exact (Hnone _ H).
  - exists ys. rewrite Hy, Hq, Hth, queued_events_some. simpl.
    rewrite app_nil_r.
    split; [reflexivity|]. split; [symmetry; exact He|].
    intros H. exfalso. exact (Hnone _ H).
  - exists ys. rewrite Hy, Hq, Hth, queued_events_app, queued_events_some.
    simpl. rewrite !app_nil_r.
    split; [reflexivity|]. split; [symmetry; exact He|].
    intros _. split; [reflexivity|]. now exists qs.
  - exists evs. rewrite Hy, Hq, Hth. simpl. rewrite app_nil_r.
    split; [reflexivity|]. split; [reflexivity|]. intros [].
Qed.
End Conservation.

Section Acceptance.
Variable C : Collaborators.

(** X11. The route answers with a stream exactly when the body is an object
    whose [context] and [query] are both present and not empty and whose
    [max_iterations] (10 when absent) converts with [int]; the generator
    then closes over these values, with ["gpt-4o-mini"] for a model that
    the body does not name.  Every other request gets a plain JSON
    answer. *)
Theorem request_is_streamed_iff (body : Value) (g : app.Closure) :
  app.query C body = app.event_stream g <->
  exists context query_text model' rmodel raw n,
    app.get body "context" (VStr "") = inr context /\
    app.get body "query" (VStr "") = inr query_text /\
    app.get body "model" (VStr "gpt-4o-mini") = inr model' /\
    app.get body "recursive_model" (VStr "gpt-4o-mini") = inr rmodel /\
    app.get body "max_iterations" (VInt 10) = inr raw /\
    app.int C raw = inr n /\
    truthy context = true /\ truthy query_text = true /\
    g = app.mkClosure context query_text model' rmodel n.
Proof.
  unfold app.query. split.
  - destruct body; simpl; try discriminate.
    match goal with
    | |- context [app.int C ?raw] => destruct (app.int C raw) as [e|n] eqn:Hn
    end; simpl; [discriminate|].
    match goal with
    | |- context [truthy ?c] => destruct (truthy c) eqn:Hc
    end; simpl; [|discriminate].
    match goal with
    | |- context [negb (truthy ?c)] => destruct (truthy c) eqn:Hq
    end; simpl; [|discriminate].
    intros H. injection H as <-.
    do 6 eexists. repeat split; try reflexivity; eassumption.
  - intros [context [query_text [model' [rmodel [raw [n
              [Hc [Hq [Hm [Hr [Hraw [Hn [Htc [Htq ->]]]]]]]]]]]]]].
    rewrite Hc, Hq, Hm, Hr, Hraw. simpl. rewrite Hn. simpl.
    now rewrite Htc, Htq.
Qed.
End Acceptance.


(** ** The Events a logger produces *)

Lemma logger_call_recognised (now : string) (c : LoggerCall) (lg : WebLogger) :
  Forall recognised (events lg) ->
  Forall recognised (events (logger_call now c lg)).
Proof.
  intros H. destruct c; simpl;
    try (apply Forall_app; split; [exact H|]);
    repeat constructor.
Qed.

Lemma logger_calls_recognised (cs : list (string * LoggerCall)) :
  forall lg,
    Forall recognised (events lg) ->
    Forall recognised (events (logger_calls cs lg)).
Proof.
  induction cs as [|[now c] r IH]; intros lg H; simpl; [exact H|].
  apply IH, logger_call_recognised, H.
Qed.

(** X12. Every Event a logger produces has one of the seven types
    [query_start], [model_response], [code_execution], [repl_output],
    [final_answer], [error], [tool_execution], and its data has exactly
    the fields of its type, in a fixed order: this holds for the log after
    any sequence of calls on a new logger, and for the log that any run of
    [completion] leaves behind, whatever the collaborators do and whatever
    the logger held before the run. *)
Theorem logged_events_are_recognised :
  (forall cs, Forall recognised (events (logger_calls cs WebLogger_init))) /\
  (forall (C : Collaborators) (context q : Value) (cb : bool) (st : Run C),
     Forall recognised
       (events (logger (self (snd (completion C context q cb st)))))).
Proof.
  split.
  - intros cs. apply logger_calls_recognised. constructor.
  - intros C context q cb st.
    apply (completion_establishes C
             (fun st => Forall recognised (events (logger (self st))))).
    + intros st0 w0 H0. exact H0.
    + intros st0 a _ H0. exact H0.
    + intros st0 f Hf H0. cbn [self]. now rewrite Hf.
    + intros c st0 H0. rewrite log_run. cbv zeta.
      cbn [snd self logger set_logger]. now apply logger_call_recognised.
    + intros q' st0. rewrite log_run. cbv zeta.
      cbn [snd self logger set_logger]. repeat constructor.
Qed.

(** ** The start of a run *)

(** X13. [setup_context] starts a run afresh on an object that may have been
    used before: whatever the log, the step counter and the messages held,
    afterwards the log is the single [query_start] Event of this run (with
    the default query when none was given), the step counter is 0 and the
    messages are the system prompt, also when the REPL then fails to
    start.  The execution records are not reset: they carry over. *)
Theorem setup_context_starts_afresh
    (C : Collaborators) (context q : Value) (st : Run C) :
  let st' := snd (setup_context C context q st) in
  let q' := match q with VNone => DEFAULT_QUERY C | _ => q end in
  events (logger (self st')) =
    [mkEvent "query_start" (clock C (world st)) [("query", q')] None] /\
  conversation_step (logger (self st')) = 0 /\
  query (self st') = q' /\
  messages (self st') = build_system_prompt C /\
  executions (self st') = executions (self st).
Proof.
  intros st' q'. unfold st'. rewrite setup_context_run. cbv zeta.
  cbn [snd self logger set_messages set_logger set_query messages executions
       query log_query_start events conversation_step].
  repeat split.
Qed.

(** ** The callback and the answer *)

Section AnswerFacts.
Variable C : Collaborators.

Lemma callbacks_unobserved (evs : list Event) :
  callbacks (flat_map (observe false) evs) = [].
Proof.
  now rewrite callbacks_observed.
Qed.

Lemma iteration_without_callback (r : Result (option string)) (tr : list Action) :
  iteration_trace C false r tr -> callbacks tr = [].
Proof.
  intros H;
    destruct H as [msgs w e He
                  |msgs ms ex w mr response e Hmr He
                  |msgs w mr response mid chk e Hmr Hmid [Hchk _] He
                  |msgs w mr response mid chk o Hmr Hmid [Hchk _] Ho Ht
                  |msgs w mr fa response mid chk a Hmr Hmid [Hchk _] Ho Ht Hfa Hda];
    rewrite ?callbacks_app, ?callbacks_observe, ?(callbacks_log_actions _ Hchk);
    try (rewrite (proj2 (dispatched_appended false response mid Hmid)));
    reflexivity.
Qed.

(** X14. A run without a registered callback never invokes one, whatever
    the collaborators do and however the run ends: every append of the
    run goes to the log alone. *)
Theorem no_callback_without_registration
    (context q : Value) (st : Run C) :
  callbacks (trace (snd (completion C context q false st))) =
  callbacks (trace st).
Proof.
  destruct (completion C context q false st) as [r st'] eqn:Hrun. simpl.
  destruct (completion_trace C context q false st st' r Hrun) as [qs [_ Hcases]].
  destruct Hcases as [[e [_ [_ Htr]]]|[trs [tail [Htr Hend]]]].
  { rewrite Htr, callbacks_app. simpl. apply app_nil_r. }
  assert (Hloop : forall n lr, loop_trace C false n lr trs ->
                               callbacks (List.concat trs) = []).
  { intros n lr H. pose proof (loop_trace_iterations C _ _ _ _ H) as Hall.
    clear - Hall. induction Hall as [|tr l [r' Hr'] _ IH]; simpl; [reflexivity|].
    now rewrite callbacks_app, (iteration_without_callback r' tr Hr'), IH. }
  rewrite Htr, !callbacks_app. simpl.
  inversion Hend; subst; simpl;
    try (erewrite Hloop by eassumption); simpl; now rewrite ?app_nil_r.
Qed.

Lemma bind_assoc {A B D : Type} (m : M C A) (f : A -> M C B) (g : B -> M C D)
    (st : Run C) :
  bind (bind m f) g st = bind m (fun x => bind (f x) g) st.
Proof.
  unfold bind. destruct (m st) as [[e|a] st1]; reflexivity.
Qed.

Lemma bind_ext {A B : Type} (m : M C A) (f g : A -> M C B) (st : Run C) :
  (forall a s, f a s = g a s) -> bind m f st = bind m g st.
Proof.
  intros H. unfold bind. destruct (m st) as [[e|a] st1]; [reflexivity|apply H].
Qed.

(** An iteration is its first half followed by the check on the reply. *)
Lemma loop_body_split (q : Value) (i : Z) (st : Run C) :
  loop_body C q i st =
  bind (reply_and_execute C q i) (check_and_answer C) st.
Proof.
  unfold loop_body, reply_and_execute. symmetry.
  rewrite bind_assoc. apply bind_ext. intros msgs s.
  rewrite bind_assoc. apply bind_ext. intros response s1.
  rewrite bind_assoc. apply bind_ext. intros [] s2.
  rewrite bind_assoc. apply bind_ext. intros [] s3.
  rewrite bind_assoc. apply bind_ext. intros [] s4.
  reflexivity.
Qed.

(** A loop that returns does so in its first matching iteration: the
    iterations before it all fell through. *)
Lemma returned_loop_splits (q : Value) (n : nat) :
  forall (i : Z) (b : option Z) (st st' : Run C) (a : string),
    for_iteration C q n i b st = (inr (Returned a), st') ->
    exists k b' st1,
      (k < n)%nat /\
      for_iteration C q k i b st = (inr (Exhausted b'), st1) /\
      loop_body C q (i + Z.of_nat k) st1 = (inr (Some a), st').
Proof.
  induction n as [|n IH]; intros i b st st' a H; simpl in H.
  - discriminate.
  - unfold bind at 1 in H.
    destruct (loop_body C q i st) as [[e|[a0|]] st1] eqn:Hbody.
    + discriminate.
    + unfold ret in H. injection H as <- <-.
      exists 0%nat, b, st. split; [lia|]. split; [reflexivity|].
      now rewrite Z.add_0_r.
    + destruct (IH _ _ _ _ _ H) as [k [b' [st2 [Hk [Hpre Hlast]]]]].
      exists (S k), b', st2. split; [lia|]. split.
      * simpl. unfold bind at 1. now rewrite Hbody.
      * now replace (i + Z.of_nat (S k)) with (i + 1 + Z.of_nat k) by lia.
Qed.

(** When the second half of an iteration returns an answer, it is the
    one the check gave for the reply in the state it was called in, and
    it is truthy. *)
Lemma check_and_answer_returns (response a : string) (stc st' : Run C) :
  check_and_answer C response stc = (inr (Some a), st') ->
  snd (fst (check_for_final_answer C response (world stc))) = inr (Some a) /\
  a <> "".
Proof.
  intros H. unfold check_and_answer in H.
  unfold bind at 1 in H. unfold emit at 1 in H.
  unfold bind at 1 in H. unfold external at 1 in H.
  cbn [self world trace] in H.
  destruct (check_for_final_answer C response (world stc)) as [[cs res] w4].
  cbn [fst snd] in *.
  unfold bind at 1 in H.
  match type of H with
  | context [logs C cs ?s] =>
      destruct (logs_run C cs s) as [lg' [w5 [chk [Hrun _]]]]
  end.
  rewrite Hrun in H. clear Hrun.
  destruct res as [e|o]; [discriminate|].
  unfold bind at 1 in H. unfold ret at 1 in H.
  destruct (truthy_opt o) eqn:Ht.
  - destruct o as [a0|]; [|discriminate].
    rewrite (log_stream_bind C _ _ _ (mkEvent "final_answer" (clock C w5)
               [("answer", VStr a0)] None)) in H by reflexivity.
    unfold ret in H. injection H as Ha _. subst a0.
    split; [reflexivity|]. intros ->. discriminate.
  - discriminate.
Qed.

(** X15. A run never invents its answer.  When [completion] returns,
    either the loop fell through some iterations, the next one got a
    reply from the Model and handled it, the final-answer check, called
    on that reply in the state then reached, gave the answer, which is
    not empty, and the run ended there; or the loop fell through all its
    iterations, at least one, and the answer is the Model's reply, taken
    as it is, to the forced final call, made in the state then reached
    on the messages with the final prompt for the last iteration's
    index. *)
Theorem answer_comes_from_check_or_forced_call
    (context q : Value) (cb : bool) (st st' : Run C) (result : Completion)
    (Hrun : completion C context q cb st = (inr result, st')) :
  let n := Z.to_nat (max_iterations (self st)) in
  let st0 := loop_start C context q cb st in
  (exists k b st1 response stc,
     (k < n)%nat /\
     for_iteration C q k 0 None st0 = (inr (Exhausted b), st1) /\
     reply_and_execute C q (Z.of_nat k) st1 = (inr response, stc) /\
     snd (fst (check_for_final_answer C response (world stc)))
       = inr (Some (answer result)) /\
     answer result <> "" /\
     check_and_answer C response stc = (inr (Some (answer result)), st')) \/
  (exists b st1,
     0 < max_iterations (self st) /\
     for_iteration C q n 0 None st0 = (inr (Exhausted b), st1) /\
     let msgs :=
       messages (self st1) ++ [next_action_prompt C q (Z.of_nat n - 1) true] in
     fst (llm_completion C msgs (world st1)) = inr (answer result) /\
     messages (self st') = msgs).
Proof.
  cbv zeta. unfold loop_start. rename Hrun into H.
  unfold completion in H.
  unfold bind at 1 in H. unfold update_self at 1 in H.
  unfold bind at 1 in H. rewrite setup_context_run in H. cbv zeta in H.
  rewrite setup_context_run. cbv zeta.
  cbn [self world trace event_callback set_event_callback base_url
       recursive_model logger snd] in *.
  destruct (REPLEnv C (base_url (self st)) context (recursive_model (self st))
              (tick C (world st))) as [[e|[]] w2] eqn:Hrepl;
    cbn [fst snd] in *; [discriminate|].
  unfold bind at 1 in H. unfold update_self at 1 in H.
  unfold bind at 1 in H. unfold read at 1 in H.
  cbn [self world trace max_iterations set_messages set_logger set_query
       set_event_callback] in H.
  unfold bind at 1 in H.
  match type of H with
  | context [for_iteration C q ?n ?i ?b ?s] =>
      destruct (for_iteration C q n i b s) as [lr st1] eqn:Hloop;
      destruct (for_iteration_trace C q n i b s st1 lr Hloop)
        as [trs [_ [_ [_ Hbound]]]]
  end.
  destruct lr as [e|[a|b]].
  - discriminate.
  - left. unfold return_completion, bind, read, ret in H. injection H as <- <-.
    destruct (returned_loop_splits _ _ _ _ _ _ _ Hloop)
      as [k [b' [st2 [Hk [Hpre Hlast]]]]].
    rewrite loop_body_split in Hlast. unfold bind at 1 in Hlast.
    rewrite Z.add_0_l in Hlast.
    destruct (reply_and_execute C q (Z.of_nat k) st2) as [[e|response] stc]
      eqn:Hfront; [discriminate|].
    destruct (check_and_answer_returns _ _ _ _ Hlast) as [Hchk Hne].
    exists k, b', st2, response, stc. cbn [answer].
    split; [exact Hk|]. split; [exact Hpre|]. split; [exact Hfront|].
    split; [exact Hchk|]. split; [exact Hne|exact Hlast].
  - right. specialize (Hbound b eq_refl).
    destruct (Z.to_nat (max_iterations (self st))) as [|k] eqn:Hn.
    + subst b. unfold bind at 1 in H. unfold raise in H. discriminate.
    + subst b. unfold bind at 1 in H. unfold ret at 1 in H.
      unfold bind at 1 in H. unfold read at 1 in H.
      unfold bind at 1 in H. unfold update_self at 1 in H.
      unfold bind at 1 in H. unfold read at 1 in H.
      cbn [self world trace messages set_messages] in H.
      unfold bind at 1 in H. unfold call_llm in H.
      unfold bind at 1 in H. unfold emit at 1 in H.
      unfold external at 1 in H. cbn [self world trace] in H.
      replace (Z.of_nat (S k) - 1) with (0 + Z.of_nat k) by lia.
      match type of H with
      | context [llm_completion C ?m ?w] =>
          destruct (llm_completion C m w) as [[e|s] w3] eqn:Hllm
      end; [discriminate|].
      rewrite (log_stream_bind C _ _ _ (mkEvent "final_answer" (clock C w3)
                 [("answer", VStr s)] None)) in H by reflexivity.
      unfold return_completion, bind, read, ret in H.
      injection H as <- <-.
      exists (Some (0 + Z.of_nat k)), st1. cbn [answer].
      split; [lia|]. split; [exact Hloop|].
      cbn [self messages set_messages set_logger].
      split; [exact (f_equal fst Hllm)|reflexivity].
Qed.
End AnswerFacts.

(** X15 on a concrete run: the first reply names a variable the REPL
    does not hold, the second answers with the marker. *)
Lemma answer_comes_from_check_or_forced_call_witness :
  let C := scripted.unresolved_variable in
  let st := scripted.fresh C 0%nat 5 in
  let st' := snd (completion C (VStr "context") (VStr "query") true st) in
  let st0 := loop_start C (VStr "context") (VStr "query") true st in
  completion C (VStr "context") (VStr "query") true st
    = (inr (mkCompletion "Paris" (get_events (logger (self st')))), st') /\
  ((exists k b st1 response stc,
      (k < 5)%nat /\
      for_iteration C (VStr "query") k 0 None st0 = (inr (Exhausted b), st1) /\
      reply_and_execute C (VStr "query") (Z.of_nat k) st1 = (inr response, stc) /\
      snd (fst (check_for_final_answer C response (world stc))) = inr (Some "Paris") /\
      "Paris" <> "" /\
      check_and_answer C response stc = (inr (Some "Paris"), st')) \/
   (exists b st1,
      0 < 5 /\
      for_iteration C (VStr "query") 5 0 None st0 = (inr (Exhausted b), st1) /\
      fst (llm_completion C
             (messages (self st1) ++ [next_action_prompt C (VStr "query") 4 true])
             (world st1)) = inr "Paris" /\
      messages (self st') =
        messages (self st1) ++ [next_action_prompt C (VStr "query") 4 true])).
Proof.
  intros C st st' st0.
  assert (Hrun : completion C (VStr "context") (VStr "query") true st
                 = (inr (mkCompletion "Paris" (get_events (logger (self st')))),
                    st'))
    by (vm_compute; reflexivity).
  split; [exact Hrun|].
  exact (answer_comes_from_check_or_forced_call C _ _ _ _ _ _ Hrun).
Defined.
